(** * Cursor pagination of the Resend node: [requestList] and [paginatedLoadOptions]

    A shallow embedding of [nodes/Resend/GenericFunctions.ts].  The two
    asynchronous functions that walk the upstream cursor protocol are
    written in a small state-and-exception monad whose state holds the
    upstream (the "world" behind [helpers.httpRequest]) and the log of the
    calls issued so far.

    Conventions of the embedding:
    - JSON documents and JavaScript values are the type [jsval]; JavaScript
      numbers are restricted to integers ([Z]);
    - what a template literal prints is stated for strings only: see
      [toString] for the values on which it is JavaScript's conversion;
    - a JavaScript object is an association list in insertion order, read
      with [assoc_get] and written with [assoc_set];
    - the query object [qs] is a [gmap string jsval];
    - a [while] loop is a fixpoint on a fuel argument; running out of fuel is
      the outcome [Diverge], and the loops of this file are shown never to
      reach it with [maxPages] units of fuel.

    The helpers of the file ([normalizeEmailList], [parseTemplateVariables],
    [buildTemplateSendVariables], [getTemplateVariables] and the three
    dropdown loaders) follow; there a character of a string is a code unit
    below 256, and [Number] and [encodeURIComponent] are parameters. *)

From Stdlib Require Import Ascii.
From stdpp Require Import base strings gmap list pretty.

Set Warnings "-register-all".

Open Scope string_scope.
Open Scope list_scope.
Open Scope Z_scope.

(** ** JavaScript values *)

Inductive jsval : Type :=
  | VUndef
  | VNull
  | VBool (b : bool)
  | VNum (n : Z)
  | VStr (s : string)
  | VArr (items : list jsval)
  | VObj (fields : list (string * jsval)).

(** [Boolean(v)] and the test of [if (v)], [!v], [v ? _ : _], [v && _]. *)
Definition truthy (v : jsval) : bool :=
  match v with
  | VUndef | VNull => false
  | VBool b => b
  | VNum n => negb (n =? 0)
  | VStr s => negb (String.eqb s "")
  | VArr _ | VObj _ => true
  end.

Definition nullish (v : jsval) : bool :=
  match v with
  | VUndef | VNull => true
  | _ => false
  end.

(** [Array.isArray(v)] *)
Definition isArray (v : jsval) : bool :=
  match v with
  | VArr _ => true
  | _ => false
  end.

(** [a ?? b] *)
Definition coalesce (a b : jsval) : jsval := if nullish a then b else a.

Fixpoint assoc_get (k : string) (fs : list (string * jsval)) : option jsval :=
  match fs with
  | [] => None
  | (k', v) :: rest => if String.eqb k k' then Some v else assoc_get k rest
  end.

(** Assignment to a property: an existing key keeps its place, a new key is
    added at the end. *)
Fixpoint assoc_set (k : string) (v : jsval) (fs : list (string * jsval))
  : list (string * jsval) :=
  match fs with
  | [] => [(k, v)]
  | (k', v') :: rest =>
      if String.eqb k k' then (k, v) :: rest else (k', v') :: assoc_set k v rest
  end.

(** ** Exceptions and outcomes *)

Inductive exn : Type :=
  | NodeOperationError (message : string) (itemIndex : Z)
  | TypeError
  | TransportError (detail : string).

Inductive outcome (A : Type) : Type :=
  | Ok (a : A)
  | Throw (e : exn)
  | Diverge.

Arguments Ok {A} a.
Arguments Throw {A} e.
Arguments Diverge {A}.

Definition obind {A B} (o : outcome A) (k : A → outcome B) : outcome B :=
  match o with
  | Ok a => k a
  | Throw e => Throw e
  | Diverge => Diverge
  end.

Notation "'let?' x ':=' o 'in' k" := (obind o (λ x, k))
  (at level 10, x pattern, o at level 100, k at level 200).

(** [v.k] for the property names this file reads ([data], [has_more], [id],
    [name]): a [TypeError] on [null] and [undefined], the field of an object,
    and [undefined] on every other value, none of which has such a property. *)
Definition get_prop (v : jsval) (k : string) : outcome jsval :=
  match v with
  | VUndef | VNull => Throw TypeError
  | VObj fs => Ok (default VUndef (assoc_get k fs))
  | _ => Ok VUndef
  end.

(** [v?.k] *)
Definition opt_prop (v : jsval) (k : string) : jsval :=
  match v with
  | VObj fs => default VUndef (assoc_get k fs)
  | _ => VUndef
  end.

(** [v.k = x].  The source assigns only to a response whose [data] was just
    seen to be an array, which makes the response an object
    (see [get_prop_array_obj]). *)
Definition set_prop (v : jsval) (k : string) (x : jsval) : jsval :=
  match v with
  | VObj fs => VObj (assoc_set k x fs)
  | _ => v
  end.

(** The string conversion of a template literal [`${v}`] and of [String(v)].
    It is JavaScript's conversion on [undefined], [null], booleans, strings,
    integers of magnitude at most 2^53, arrays of such values, and objects
    without a field of their own named [toString].  JavaScript prints a
    larger number from the shortest digits that identify it, from 10^21 on
    with an exponent, and throws a [TypeError] on an object with such a
    field; the theorems that state what a conversion prints state it for
    strings, which it leaves as they are. *)
Fixpoint toString (v : jsval) : string :=
  match v with
  | VUndef => "undefined"
  | VNull => "null"
  | VBool true => "true"
  | VBool false => "false"
  | VNum n => pretty n
  | VStr s => s
  | VArr l =>
      (fix join (l : list jsval) : string :=
         match l with
         | [] => ""
         | [x] => if nullish x then "" else toString x
         | x :: rest => (if nullish x then "" else toString x) +:+ "," +:+ join rest
         end) l
  | VObj _ => "[object Object]"
  end.

(** ** Requests, the upstream and the monad *)

Record request : Type := mkRequest {
  req_url : string;
  req_method : string;
  req_authorization : string;
  req_qs : gmap string jsval;
  req_json : bool
}.

(** What the promise of [helpers.httpRequest] settles to. *)
Inductive reply : Type :=
  | Resolved (v : jsval)
  | Rejected (e : exn).

(** The upstream and the calls issued so far, oldest first, each with what
    it settled to. *)
Record state (World : Type) : Type := mkState {
  world : World;
  calls : list (request * reply)
}.

Arguments mkState {World} _ _.
Arguments world {World} _.
Arguments calls {World} _.

(** Computations over the upstream and the call log that return, throw or
    run out of fuel. *)
Definition M (World A : Type) : Type := state World → outcome A * state World.

Definition ret {World A} (a : A) : M World A := λ st, (Ok a, st).

Definition throw {World A} (e : exn) : M World A := λ st, (Throw e, st).

Definition diverge {World A} : M World A := λ st, (Diverge, st).

Definition bind {World A B} (m : M World A) (k : A → M World B) : M World B :=
  λ st,
    match m st with
    | (Ok a, st') => k a st'
    | (Throw e, st') => (Throw e, st')
    | (Diverge, st') => (Diverge, st')
    end.

Definition lift {World A} (o : outcome A) : M World A := λ st, (o, st).

Notation "'let!' x ':=' m 'in' k" := (bind m (λ x, k))
  (at level 10, x pattern, m at level 100, k at level 200).

Definition RESEND_API_BASE : string := "https://api.resend.com".

Definition bearer (apiKey : string) : string := "Bearer " +:+ apiKey.

Inductive control : Type := Break | Continue.

Inductive direction : Type := After | Before.

(** [ListOptions]: both cursors are optional strings. *)
Record ListOptions : Type := mkListOptions {
  after : option string;
  before : option string
}.

(** The truth value of an optional string field. *)
Definition set_cursor (c : option string) : bool :=
  match c with
  | Some s => negb (String.eqb s "")
  | None => false
  end.

Definition dquote : string := String (ascii_of_nat 34) EmptyString.

Definition both_cursors_message : string :=
  "You can only use either " +:+ dquote +:+ "After" +:+ dquote +:+ " or "
  +:+ dquote +:+ "Before" +:+ dquote +:+ ", not both.".

(** ** The two paginating functions *)

Section Pagination.

Context {World : Type}.

(** The transport behind [helpers.httpRequest]: one call settles to a
    reply and moves the upstream to its next state. *)
Variable transport : request → World → reply * World.

Definition httpRequest (rq : request) : M World jsval :=
  λ st,
    let '(r, w) := transport rq (world st) in
    let st' := mkState w (calls st ++ [(rq, r)]) in
    match r with
    | Resolved v => (Ok v, st')
    | Rejected e => (Throw e, st')
    end.

(** *** [requestList] *)

Definition maxPages : nat := 100.

(** The variables the [while] loop of [requestList] reads and writes. *)
Record walk : Type := mkWalk {
  w_qs : gmap string jsval;
  w_allItems : list jsval;
  w_lastResponse : jsval;
  w_hasMore : bool;
  w_pageCount : nat;
  w_paginationMode : option direction
}.

(** The body of [while (hasMore)] from the point where the awaited
    response is in hand. *)
Definition walk_next (v : walk) (lastResponse : jsval)
  : outcome (control * walk) :=
  let? d := get_prop lastResponse "data" in
  let responseData := match d with VArr l => l | _ => [] end in
  let allItems := w_allItems v ++ responseData in
  let? hm := get_prop lastResponse "has_more" in
  let hasMore := truthy hm in
  let pageCount := S (w_pageCount v) in
  let v1 := mkWalk (w_qs v) allItems lastResponse hasMore pageCount
              (w_paginationMode v) in
  if negb hasMore || (length responseData =? 0)%nat || (maxPages <=? pageCount)%nat
  then Ok (Break, v1)
  else
    let lastItem := List.last responseData VUndef in
    let id := opt_prop lastItem "id" in
    if negb (truthy id) then Ok (Break, v1)
    else
      match w_paginationMode v with
      | Some Before =>
          Ok (Continue,
              mkWalk (delete "after" (<["before" := id]> (w_qs v)))
                allItems lastResponse hasMore pageCount (Some Before))
      | _ =>
          Ok (Continue,
              mkWalk (delete "before" (<["after" := id]> (w_qs v)))
                allItems lastResponse hasMore pageCount (Some After))
      end.

(** One pass through the body of [while (hasMore)]. *)
Definition walk_body (requestPage : gmap string jsval → M World jsval)
    (v : walk) : M World (control * walk) :=
  let! lastResponse := requestPage (w_qs v) in
  lift (walk_next v lastResponse).

(** [while (hasMore) { ... }] *)
Fixpoint walk_loop (fuel : nat)
    (requestPage : gmap string jsval → M World jsval) (v : walk)
  : M World walk :=
  if w_hasMore v then
    match fuel with
    | O => diverge
    | S fuel' =>
        let! (c, v') := walk_body requestPage v in
        match c with
        | Break => ret v'
        | Continue => walk_loop fuel' requestPage v'
        end
    end
  else ret v.

Definition empty_list_result (allItems : list jsval) : jsval :=
  VObj [("object", VStr "list"); ("data", VArr allItems);
        ("has_more", VBool false)].

(** The single-page branch after its one awaited response: the cut to
    [limit] items and the [return]. *)
Definition clip_page (limit : option Z) (singleResponse : jsval)
  : outcome jsval :=
  match limit with
  | Some l =>
      if 0 <? l then
        let? d := get_prop singleResponse "data" in
        match d with
        | VArr responseData =>
            if l <? Z.of_nat (length responseData)
            then Ok (set_prop singleResponse "data"
                       (VArr (take (Z.to_nat l) responseData)))
            else Ok singleResponse
        | _ => Ok singleResponse
        end
      else Ok singleResponse
  | None => Ok singleResponse
  end.

(** [requestList], with the fuel of its loop as an argument.  [limit] is
    [None] for a call without the argument.  The source's test
    [pageSize !== undefined] always holds, so [qs.limit] is always set.
    After the loop [lastResponse] is read with [?.], which agrees with [.]
    on the truthy value the test before it lets through. *)
Definition requestList_fuel (fuel : nat) (url : string)
    (listOptions : ListOptions) (apiKey : string) (itemIndex : Z)
    (returnAll : bool) (limit : option Z) : M World jsval :=
  if set_cursor (after listOptions) && set_cursor (before listOptions)
  then throw (NodeOperationError both_cursors_message itemIndex)
  else
    let shouldReturnAll := returnAll in
    let qs : gmap string jsval := ∅ in
    let pageSize := if shouldReturnAll then 100 else default 50 limit in
    let qs := <["limit" := VNum pageSize]> qs in
    let qs :=
      if set_cursor (after listOptions)
      then <["after" := VStr (default "" (after listOptions))]> qs else qs in
    let qs :=
      if set_cursor (before listOptions)
      then <["before" := VStr (default "" (before listOptions))]> qs else qs in
    let requestPage (qs : gmap string jsval) :=
      httpRequest (mkRequest url "GET" (bearer apiKey) qs true) in
    if negb shouldReturnAll then
      let! singleResponse := requestPage qs in
      lift (clip_page limit singleResponse)
    else
      let paginationMode :=
        if set_cursor (before listOptions) then Some Before else None in
      let! v := walk_loop fuel requestPage
                  (mkWalk qs [] VUndef true 0 paginationMode) in
      let lastResponse := w_lastResponse v in
      let allItems := w_allItems v in
      if truthy lastResponse && isArray (opt_prop lastResponse "data")
      then ret (set_prop (set_prop lastResponse "data" (VArr allItems))
                  "has_more" (VBool false))
      else ret (empty_list_result allItems).

(** The loop ends within [maxPages] passes ([requestList_fuel_enough]), so
    that much fuel gives the function of the source. *)
Definition requestList := requestList_fuel maxPages.

(** *** [paginatedLoadOptions] *)

Record INodePropertyOptions : Type := mkOption {
  opt_name : jsval;
  opt_value : jsval
}.

Definition loaderMaxPages : nat := 10.

(** One pass of the [for ... of] body: [None] is the [continue]. *)
Definition project_item (item : jsval) : option INodePropertyOptions :=
  let id := opt_prop item "id" in
  if negb (truthy id) then None
  else
    (* [item] has a truthy [id], so it is an object and [item.name] reads it *)
    let nm := opt_prop item "name" in
    let name :=
      if truthy nm then VStr (toString nm +:+ " (" +:+ toString id +:+ ")")
      else id in
    Some (mkOption name id).

Definition project_items (items : list jsval) : list INodePropertyOptions :=
  omap project_item items.

(** The variables the [while] loop of the loader reads and writes. *)
Record load : Type := mkLoad {
  l_returnData : list INodePropertyOptions;
  l_after : jsval;
  l_hasMore : bool;
  l_pageCount : nat
}.

(** The query of one pass: a fresh object with [limit], and [after] when
    the cursor is truthy. *)
Definition load_qs (after : jsval) : gmap string jsval :=
  let limit := 100 in
  let qs : gmap string jsval := {[ "limit" := VNum limit ]} in
  if truthy after then <["after" := after]> qs else qs.

(** The body of the loader's [while (hasMore)] from the point where the
    awaited response is in hand. *)
Definition load_next (v : load) (response : jsval) : outcome (control * load) :=
  let items := coalesce (opt_prop response "data") (VArr []) in
  (* [for (const item of items)]: an array yields its elements, a string
     yields strings, which have no [id]; nothing else is iterable *)
  let? pushed :=
    match items with
    | VArr l => Ok (project_items l)
    | VStr _ => Ok []
    | _ => Throw TypeError
    end in
  let returnData := l_returnData v ++ pushed in
  let hasMore := truthy (opt_prop response "has_more") in
  (* [items.length ? items[items.length - 1].id : undefined] *)
  let? after :=
    match items with
    | VArr (x :: l) => get_prop (List.last (x :: l) VUndef) "id"
    | _ => Ok VUndef
    end in
  let pageCount := S (l_pageCount v) in
  let v' := mkLoad returnData after hasMore pageCount in
  if negb (truthy after) || (loaderMaxPages <=? pageCount)%nat
  then Ok (Break, v')
  else Ok (Continue, v').

Definition load_body (endpoint apiKey : string) (v : load)
  : M World (control * load) :=
  let! response :=
    httpRequest (mkRequest (RESEND_API_BASE +:+ endpoint) "GET"
                   (bearer apiKey) (load_qs (l_after v)) true) in
  lift (load_next v response).

(** [while (hasMore) { ... }] of the loader *)
Fixpoint load_loop (fuel : nat) (endpoint apiKey : string) (v : load)
  : M World load :=
  if l_hasMore v then
    match fuel with
    | O => diverge
    | S fuel' =>
        let! (c, v') := load_body endpoint apiKey v in
        match c with
        | Break => ret v'
        | Continue => load_loop fuel' endpoint apiKey v'
        end
    end
  else ret v.

(** The credential lookup is outside the file: the key it yields is an
    argument here. *)
Definition paginatedLoadOptions_fuel (fuel : nat) (endpoint apiKey : string)
  : M World (list INodePropertyOptions) :=
  let! v := load_loop fuel endpoint apiKey (mkLoad [] VUndef true 0) in
  ret (l_returnData v).

(** The loop ends within [loaderMaxPages] passes
    ([paginatedLoadOptions_fuel_enough]). *)
Definition paginatedLoadOptions := paginatedLoadOptions_fuel loaderMaxPages.

End Pagination.

(** ** Upstreams used in examples *)

(** An upstream that plays a fixed script of responses, one per call, and
    rejects once the script is over. *)
Definition scripted (rq : request) (w : list jsval) : reply * list jsval :=
  match w with
  | [] => (Rejected (TransportError "script exhausted"), [])
  | v :: rest => (Resolved v, rest)
  end.

(** An upstream that answers every call with the same response. *)
Definition constantly (v : jsval) (rq : request) (w : unit) : reply * unit :=
  (Resolved v, tt).

(** A well-formed list response of the upstream wire contract. *)
Definition page (items : list jsval) (has_more : bool) : jsval :=
  VObj [("object", VStr "list"); ("has_more", VBool has_more);
        ("data", VArr items)].

Definition item_of_id (id : string) : jsval := VObj [("id", VStr id)].

Definition init {World} (w : World) : state World := mkState w [].

(** ** Reading a response *)

(** The item sequence of a response: its [data] when that is an array, and
    no item otherwise. *)
Definition page_items (resp : jsval) : list jsval :=
  match opt_prop resp "data" with
  | VArr l => l
  | _ => []
  end.

Definition page_has_more (resp : jsval) : bool :=
  truthy (opt_prop resp "has_more").

(** The [id] of the last item of the page, the next cursor. *)
Definition last_id (resp : jsval) : jsval :=
  opt_prop (List.last (page_items resp) VUndef) "id".

Definition reply_items (r : reply) : list jsval :=
  match r with
  | Resolved v => page_items v
  | Rejected _ => []
  end.

(** All the items a sequence of calls received, in call order. *)
Definition received (cs : list (request * reply)) : list jsval :=
  concat (map (λ c, reply_items c.2) cs).

(** The continuation predicate of the full-aggregation loop, for the page
    that was fetched by call number [pageCount] (counted from 1): the four
    conditions under which [walk_next] answers [Continue]
    (see [walk_next_eq]). *)
Definition continues (pageCount : nat) (resp : jsval) : bool :=
  page_has_more resp
  && negb (length (page_items resp) =? 0)%nat
  && (pageCount <? maxPages)%nat
  && truthy (last_id resp).

(** The query of the next request: the active cursor is set to [id] and the
    other cursor is deleted. *)
Definition next_qs (mode : option direction) (qs : gmap string jsval)
    (id : jsval) : gmap string jsval :=
  match mode with
  | Some Before => delete "after" (<["before" := id]> qs)
  | _ => delete "before" (<["after" := id]> qs)
  end.

Definition next_mode (mode : option direction) : option direction :=
  match mode with
  | Some Before => Some Before
  | _ => Some After
  end.

(** The loop variables after a page that ends the walk, and after a page
    that continues it. *)
Definition stay (v : walk) (resp : jsval) : walk :=
  mkWalk (w_qs v) (w_allItems v ++ page_items resp) resp (page_has_more resp)
    (S (w_pageCount v)) (w_paginationMode v).

Definition advance (v : walk) (resp : jsval) : walk :=
  mkWalk (next_qs (w_paginationMode v) (w_qs v) (last_id resp))
    (w_allItems v ++ page_items resp) resp (page_has_more resp)
    (S (w_pageCount v)) (next_mode (w_paginationMode v)).


(** ** The first query and the last step of [requestList] *)

(** The query [requestList] builds before its first request. *)
Definition initial_qs (listOptions : ListOptions) (pageSize : Z)
  : gmap string jsval :=
  let qs : gmap string jsval := <["limit" := VNum pageSize]> ∅ in
  let qs :=
    if set_cursor (after listOptions)
    then <["after" := VStr (default "" (after listOptions))]> qs else qs in
  if set_cursor (before listOptions)
  then <["before" := VStr (default "" (before listOptions))]> qs else qs.

Definition initial_mode (listOptions : ListOptions) : option direction :=
  if set_cursor (before listOptions) then Some Before else None.

Definition initial_walk (listOptions : ListOptions) : walk :=
  mkWalk (initial_qs listOptions 100) [] VUndef true 0
    (initial_mode listOptions).

(** What [requestList] returns once the loop has ended with variables [v]. *)
Definition finish (v : walk) : jsval :=
  if truthy (w_lastResponse v) && isArray (opt_prop (w_lastResponse v) "data")
  then set_prop (set_prop (w_lastResponse v) "data" (VArr (w_allItems v)))
         "has_more" (VBool false)
  else empty_list_result (w_allItems v).

Definition both_cursors (listOptions : ListOptions) : bool :=
  set_cursor (after listOptions) && set_cursor (before listOptions).

(** ** The walk of the full-aggregation loop as a relation *)

Section WalkRelation.

Context {World : Type}.
Variable transport : request → World → reply * World.
Variables url apiKey : string.

(** The request [requestPage] issues for a given query. *)
Definition page_request (qs : gmap string jsval) : request :=
  mkRequest url "GET" (bearer apiKey) qs true.

Definition requestPage (qs : gmap string jsval) : M World jsval :=
  httpRequest transport (page_request qs).

(** [walks v w cs o w']: from loop variables [v] and upstream [w] the loop
    issues the calls [cs], ends with outcome [o] and leaves the upstream
    in [w'].  [walk_loop] computes this relation
    (see [walk_loop_walks] and [walks_walk_loop]). *)
Inductive walks : walk → World → list (request * reply) → outcome walk → World → Prop :=
  | walks_stop v w :
      w_hasMore v = false →
      walks v w [] (Ok v) w
  | walks_reject v w e w' :
      w_hasMore v = true →
      transport (page_request (w_qs v)) w = (Rejected e, w') →
      walks v w [(page_request (w_qs v), Rejected e)] (Throw e) w'
  | walks_fault v w resp w' :
      w_hasMore v = true →
      transport (page_request (w_qs v)) w = (Resolved resp, w') →
      nullish resp = true →
      walks v w [(page_request (w_qs v), Resolved resp)] (Throw TypeError) w'
  | walks_break v w resp w' :
      w_hasMore v = true →
      transport (page_request (w_qs v)) w = (Resolved resp, w') →
      nullish resp = false →
      continues (S (w_pageCount v)) resp = false →
      walks v w [(page_request (w_qs v), Resolved resp)] (Ok (stay v resp)) w'
  | walks_continue v w resp w' cs o w'' :
      w_hasMore v = true →
      transport (page_request (w_qs v)) w = (Resolved resp, w') →
      nullish resp = false →
      continues (S (w_pageCount v)) resp = true →
      walks (advance v resp) w' cs o w'' →
      walks v w ((page_request (w_qs v), Resolved resp) :: cs) o w''.

End WalkRelation.

(** The request the dropdown loader issues for a given cursor. *)
Definition load_request (endpoint apiKey : string) (after : jsval) : request :=
  mkRequest (RESEND_API_BASE +:+ endpoint) "GET" (bearer apiKey)
    (load_qs after) true.

(** ** What a run sent, and what the spec prescribes *)

(** The [limit] parameters sent by the calls of a run, in call order. *)
Definition limits_sent (cs : list (request * reply)) : list (option jsval) :=
  map (λ c, req_qs c.1 !! "limit") cs.

(** The queries sent by the calls of a run, in call order. *)
Definition queries_sent (cs : list (request * reply))
  : list (gmap string jsval) :=
  map (λ c, req_qs c.1) cs.

(** The limit the spec's sentence prescribes for a single page: the
    caller's when it is provided and positive, 50 otherwise. *)
Definition spec_single_limit (limit : option Z) : Z :=
  match limit with
  | Some l => if 0 <? l then l else 50
  | None => 50
  end.

(** * The other functions of the file *)

(** ** Strings

    A character is a code unit below 256.  [trim] removes the white space
    and line terminators of JavaScript in that range: TAB, LF, VT, FF, CR,
    SPACE and NBSP. *)

Definition is_space (c : ascii) : bool :=
  let n := nat_of_ascii c in
  ((9 <=? n) && (n <=? 13) || (n =? 32) || (n =? 160))%nat.

Fixpoint trimStart (s : string) : string :=
  match s with
  | EmptyString => EmptyString
  | String c r => if is_space c then trimStart r else s
  end.

Fixpoint trimEnd (s : string) : string :=
  match s with
  | EmptyString => EmptyString
  | String c r =>
      match trimEnd r with
      | EmptyString => if is_space c then EmptyString else String c EmptyString
      | r' => String c r'
      end
  end.

(** [s.trim()] *)
Definition trim (s : string) : string := trimEnd (trimStart s).

(** [s.split(sep)] for a separator of one character: the pieces between
    the separators, in order; the empty string gives one empty piece. *)
Fixpoint split (sep : ascii) (s : string) : list string :=
  match s with
  | EmptyString => [EmptyString]
  | String c r =>
      if Ascii.eqb c sep then EmptyString :: split sep r
      else
        match split sep r with
        | piece :: pieces => String c piece :: pieces
        | [] => [String c EmptyString]
        end
  end.

Definition comma : ascii := ascii_of_nat 44.

(** [s.includes(needle)] *)
Fixpoint includes (needle s : string) : bool :=
  String.prefix needle s
  || match s with
     | EmptyString => false
     | String _ r => includes needle r
     end.

(** [s.startsWith(p)] *)
Definition startsWith (p s : string) : bool := String.prefix p s.

(** ** [normalizeEmailList] *)

(** The argument is a string, an array or [undefined] by its type; any
    other value takes the last branch, as in the source.  [String(email)]
    is [toString]. *)
Definition normalizeEmailList (value : jsval) : list string :=
  match value with
  | VArr l =>
      filter (λ email, email ≠ "") (map (λ email, trim (toString email)) l)
  | VStr s =>
      filter (λ email, email ≠ "") (map (λ email, trim email) (split comma s))
  | _ => []
  end.

(** A string [normalizeEmailList] would keep as it is. *)
Definition clean_email (email : string) : Prop := email ≠ "" ∧ trim email = email.

(** ** [buildTemplateSendVariables] *)

(** One element of [variablesInput.variables]; [sv_value] is [VUndef] when
    the field is absent. *)
Record send_variable : Type := mkSendVariable {
  sv_key : string;
  sv_value : jsval
}.

(** [{ variables?: ... }] *)
Record send_input : Type := mkSendInput {
  si_variables : option (list send_variable)
}.

(** One pass of the [for ... of] body on the object built so far, a map
    from keys to values.  The key [__proto__], which an assignment does not
    store as a property, is outside the model. *)
Definition send_step (variables : gmap string jsval) (variable : send_variable)
  : gmap string jsval :=
  if String.eqb (sv_key variable) "" then variables
  else <[sv_key variable := coalesce (sv_value variable) (VStr "")]> variables.

(** [None] is [undefined], for the argument and for the result. *)
Definition buildTemplateSendVariables (variablesInput : option send_input)
  : option (gmap string jsval) :=
  match variablesInput with
  | Some {| si_variables := Some (v :: vs) |} =>
      let variables := foldl send_step ∅ (v :: vs) in
      if (size variables =? 0)%nat then None else Some variables
  | _ => None
  end.

(** ** [parseTemplateVariables] *)

(** One element of [variablesInput.variables]; [tv_fallbackValue] is
    [VUndef] when the field is absent. *)
Record template_variable : Type := mkTemplateVariable {
  tv_key : string;
  tv_type : string;
  tv_fallbackValue : jsval
}.

Record parse_input : Type := mkParseInput {
  pi_variables : option (list template_variable)
}.

(** The type of [fallbackKey]. *)
Inductive fallback_key : Type := FallbackValue | Fallback_value.

Definition fallback_key_name (k : fallback_key) : string :=
  match k with
  | FallbackValue => "fallbackValue"
  | Fallback_value => "fallback_value"
  end.

Definition fallback_message (key : string) : string :=
  "Variable " +:+ dquote +:+ key +:+ dquote
  +:+ " fallback value must be a number".

(** [fallbackValue !== undefined && fallbackValue !== ''] *)
Definition has_fallback (fallbackValue : jsval) : bool :=
  match fallbackValue with
  | VUndef => false
  | VStr s => negb (String.eqb s "")
  | _ => true
  end.

Section ParseTemplateVariables.

(** [Number(v)] on a value that is not a number: [Some n] when it is the
    integer [n], [None] when it is [NaN].  A value whose number is not an
    integer, as the string 9.5, is outside the model: the theorems state the
    number stored only where it is an integer. *)
Variable toNumber : jsval → option Z.

(** [typeof v === 'number' ? v : Number(v)] *)
Definition numericFallback (fallbackValue : jsval) : option Z :=
  match fallbackValue with
  | VNum n => Some n
  | _ => toNumber fallbackValue
  end.

(** The callback of [variables.map]. *)
Definition parse_variable (fallbackKey : fallback_key) (itemIndex : Z)
    (variable : template_variable) : outcome jsval :=
  let variableEntry :=
    [("key", VStr (tv_key variable)); ("type", VStr (tv_type variable))] in
  let fallbackValue := tv_fallbackValue variable in
  if has_fallback fallbackValue then
    let? parsedFallback :=
      if String.eqb (tv_type variable) "number" then
        match numericFallback fallbackValue with
        | None =>
            Throw (NodeOperationError (fallback_message (tv_key variable))
                     itemIndex)
        | Some numeric => Ok (VNum numeric)
        end
      else Ok fallbackValue in
    Ok (VObj (assoc_set (fallback_key_name fallbackKey) parsedFallback
                variableEntry))
  else Ok (VObj variableEntry).

(** A variable on which the callback throws: typed [number], with a
    fallback given that is not a number. *)
Definition bad_fallback (variable : template_variable) : bool :=
  has_fallback (tv_fallbackValue variable)
  && String.eqb (tv_type variable) "number"
  && match numericFallback (tv_fallbackValue variable) with
     | None => true
     | Some _ => false
     end.

(** [l.map(f)] for a callback that may throw: the first exception ends it. *)
Fixpoint map_outcome {A B} (f : A → outcome B) (l : list A) : outcome (list B) :=
  match l with
  | [] => Ok []
  | x :: rest =>
      let? y := f x in
      let? ys := map_outcome f rest in
      Ok (y :: ys)
  end.

(** [Ok None] is the return of [undefined]. *)
Definition parseTemplateVariables (variablesInput : option parse_input)
    (fallbackKey : fallback_key) (itemIndex : Z)
  : outcome (option (list jsval)) :=
  match variablesInput with
  | Some {| pi_variables := Some (v :: vs) |} =>
      let? entries := map_outcome (parse_variable fallbackKey itemIndex) (v :: vs) in
      Ok (Some entries)
  | _ => Ok None
  end.

End ParseTemplateVariables.

(** A stand-in for [Number] in examples: it reads the strings "42" and "7"
    and takes every other value for [NaN]. *)
Definition sample_toNumber (v : jsval) : option Z :=
  match v with
  | VStr s =>
      if String.eqb s "42" then Some 42
      else if String.eqb s "7" then Some 7 else None
  | _ => None
  end.

(** ** [getTemplateVariables], [getTemplates], [getSegments], [getTopics] *)

(** [typeof value === 'string' && value.trim() ? value : undefined] *)
Definition getStringValue (value : jsval) : option string :=
  match value with
  | VStr s => if String.eqb (trim s) "" then None else Some s
  | _ => None
  end.

(** [try { return getter() } catch { return undefined }] *)
Definition safeGet (getter : outcome jsval) : jsval :=
  match getter with
  | Ok v => v
  | _ => VUndef
  end.

(** One element of [response.variables] that passed the filter, as an
    option of the dropdown. *)
Definition variable_option (variable : jsval) : INodePropertyOptions :=
  let type := opt_prop variable "type" in
  let typeLabel := if truthy type then " (" +:+ toString type +:+ ")" else "" in
  mkOption (VStr (toString (opt_prop variable "key") +:+ typeLabel))
    (opt_prop variable "key").

(** [variables.filter(...).map(...)]; only an array has [filter]. *)
Definition variable_options (variables : jsval)
  : outcome (list INodePropertyOptions) :=
  match variables with
  | VArr l =>
      Ok (map variable_option
            (filter (λ variable, truthy (opt_prop variable "key") = true) l))
  | _ => Throw TypeError
  end.

(** The guard on the trimmed template id. *)
Definition is_expression (normalizedTemplateId : string) : bool :=
  startsWith "={{" normalizedTemplateId || includes "{{" normalizedTemplateId.

Section LoadOptions.

Context {World : Type}.
Variable transport : request → World → reply * World.

(** The node the loader runs on: the value of [getCurrentNodeParameters()],
    and what [getCurrentNodeParameter(name)] and [getNodeParameter(name, '')]
    return or throw. *)
Variable currentParameters : jsval.
Variable getCurrentNodeParameter : string → outcome jsval.
Variable getNodeParameter : string → outcome jsval.

(** [encodeURIComponent] *)
Variable encodeURIComponent : string → string.

Definition getParameterValue (name : string) : option string :=
  match getStringValue (opt_prop currentParameters name) with
  | Some fromCurrentParameters => Some fromCurrentParameters
  | None =>
      match getStringValue (safeGet (getCurrentNodeParameter name)) with
      | Some fromCurrentNodeParameter => Some fromCurrentNodeParameter
      | None => getStringValue (safeGet (getNodeParameter name))
      end
  end.

(** [getParameterValue('emailTemplateId') ?? getParameterValue('templateId')] *)
Definition resolveTemplateId : option string :=
  match getParameterValue "emailTemplateId" with
  | Some templateId => Some templateId
  | None => getParameterValue "templateId"
  end.

Definition template_request (apiKey templateId : string) : request :=
  mkRequest ("https://api.resend.com/templates/" +:+ encodeURIComponent templateId)
    "GET" (bearer apiKey) ∅ true.

(** The credential lookup is outside the file: the key it yields is an
    argument here.  The request has no query, which is the empty [req_qs]. *)
Definition getTemplateVariables (apiKey : string)
  : M World (list INodePropertyOptions) :=
  match resolveTemplateId with
  | None => ret []
  | Some templateId =>
      let normalizedTemplateId := trim templateId in
      if is_expression normalizedTemplateId then ret []
      else
        let! response := httpRequest transport (template_request apiKey templateId) in
        let variables := coalesce (opt_prop response "variables") (VArr []) in
        lift (variable_options variables)
  end.

Definition getTemplates (apiKey : string) : M World (list INodePropertyOptions) :=
  paginatedLoadOptions transport "/templates" apiKey.

Definition getSegments (apiKey : string) : M World (list INodePropertyOptions) :=
  paginatedLoadOptions transport "/segments" apiKey.

Definition getTopics (apiKey : string) : M World (list INodePropertyOptions) :=
  paginatedLoadOptions transport "/topics" apiKey.

End LoadOptions.

(** The two ways a pass of the loader throws: [data] is neither absent, an
    array nor a string, or the last item of the array is [null]. *)
Definition load_faults (resp : jsval) : bool :=
  match coalesce (opt_prop resp "data") (VArr []) with
  | VArr [] | VStr _ => false
  | VArr (x :: l) => nullish (List.last (x :: l) VUndef)
  | _ => true
  end.

(** ** The loop of the loader as a relation *)

Section LoadRelation.

Context {World : Type}.
Variable transport : request → World → reply * World.
Variables endpoint apiKey : string.

(** [loads v w cs o w']: from loop variables [v] and upstream [w] the loop
    of the loader issues the calls [cs], ends with outcome [o] and leaves
    the upstream in [w'].  [load_loop] computes this relation
    (see [load_loop_loads]). *)
Inductive loads : load → World → list (request * reply) → outcome load → World → Prop :=
  | loads_stop v w :
      l_hasMore v = false →
      loads v w [] (Ok v) w
  | loads_reject v w e w' :
      l_hasMore v = true →
      transport (load_request endpoint apiKey (l_after v)) w = (Rejected e, w') →
      loads v w [(load_request endpoint apiKey (l_after v), Rejected e)] (Throw e) w'
  | loads_fault v w resp e w' :
      l_hasMore v = true →
      transport (load_request endpoint apiKey (l_after v)) w = (Resolved resp, w') →
      load_next v resp = Throw e →
      loads v w [(load_request endpoint apiKey (l_after v), Resolved resp)]
        (Throw e) w'
  | loads_break v w resp v' w' :
      l_hasMore v = true →
      transport (load_request endpoint apiKey (l_after v)) w = (Resolved resp, w') →
      load_next v resp = Ok (Break, v') →
      loads v w [(load_request endpoint apiKey (l_after v), Resolved resp)]
        (Ok v') w'
  | loads_continue v w resp v' w' cs o w'' :
      l_hasMore v = true →
      transport (load_request endpoint apiKey (l_after v)) w = (Resolved resp, w') →
      load_next v resp = Ok (Continue, v') →
      loads v' w' cs o w'' →
      loads v w ((load_request endpoint apiKey (l_after v), Resolved resp) :: cs)
        o w''.

End LoadRelation.

(** Reduce a finished monadic run in hypothesis [H] and read off its result. *)
Ltac run_done H :=
  cbv beta iota zeta delta [ret lift throw diverge] in H; simplify_eq.

(** * Facts *)

(** ** Objects: reading after writing *)

Lemma assoc_get_set_eq k v fs : assoc_get k (assoc_set k v fs) = Some v.
Proof.
  induction fs as [|[k' v'] fs IH]; cbn.
  - by rewrite String.eqb_refl.
  - destruct (String.eqb k k') eqn:E; cbn; rewrite ?String.eqb_refl, ?E; done.
Qed.

Lemma assoc_get_set_ne k k' v fs :
  k ≠ k' → assoc_get k' (assoc_set k v fs) = assoc_get k' fs.
Proof.
  intros Hne. induction fs as [|[k0 v0] fs IH]; cbn.
  - by rewrite (proj2 (String.eqb_neq k' k)).
  - destruct (String.eqb k k0) eqn:E; cbn.
    + apply String.eqb_eq in E as <-.
      by rewrite (proj2 (String.eqb_neq k' k)).
    + by rewrite IH.
Qed.

Lemma opt_prop_set_eq fs k v : opt_prop (set_prop (VObj fs) k v) k = v.
Proof. cbn. by rewrite assoc_get_set_eq. Qed.

Lemma opt_prop_set_ne fs k k' v :
  k ≠ k' → opt_prop (set_prop (VObj fs) k v) k' = opt_prop (VObj fs) k'.
Proof. intros. cbn. by rewrite assoc_get_set_ne. Qed.

(** Writing key [k] leaves the fields under every other key as they were,
    in the same order. *)
Lemma assoc_set_filter (P : string → Prop) `{!∀ x, Decision (P x)} k v fs :
  ¬ P k →
  filter (λ f, P f.1) (assoc_set k v fs) = filter (λ f, P f.1) fs.
Proof.
  intros Hk. induction fs as [|[k' v'] fs IH]; cbn [assoc_set].
  - by rewrite filter_cons_False.
  - destruct (String.eqb k k') eqn:E.
    + apply String.eqb_eq in E as <-. by rewrite !filter_cons_False.
    + rewrite !filter_cons. cbn [fst]. by rewrite IH.
Qed.

(** ** Property reads and the step of the loop *)

Lemma get_prop_opt_prop v k :
  nullish v = false → get_prop v k = Ok (opt_prop v k).
Proof. by destruct v. Qed.

Lemma get_prop_nullish v k : nullish v = true → get_prop v k = Throw TypeError.
Proof. by destruct v. Qed.

Lemma get_prop_not_diverge v k : get_prop v k ≠ Diverge.
Proof. by destruct v. Qed.


Lemma get_prop_array_obj v k l :
  get_prop v k = Ok (VArr l) → ∃ fs, v = VObj fs.
Proof. destruct v; simpl; try discriminate; eauto. Qed.

Lemma opt_prop_array_obj v k l : opt_prop v k = VArr l → ∃ fs, v = VObj fs.
Proof. destruct v; simpl; try discriminate; eauto. Qed.

Lemma walk_next_nullish v resp :
  nullish resp = true → walk_next v resp = Throw TypeError.
Proof. intros H. unfold walk_next. by rewrite get_prop_nullish. Qed.

Lemma walk_next_eq v resp :
  nullish resp = false →
  walk_next v resp =
    Ok (if continues (S (w_pageCount v)) resp
        then (Continue, advance v resp) else (Break, stay v resp)).
Proof.
  intros H. unfold walk_next.
  rewrite !get_prop_opt_prop by done. cbn [obind].
  unfold continues, advance, stay, last_id, page_has_more, page_items,
    next_qs, next_mode.
  set (items := match opt_prop resp "data" with VArr l => l | _ => [] end).
  destruct (truthy (opt_prop resp "has_more")); cbn [negb orb andb]; [|done].
  destruct (length items =? 0)%nat; cbn [negb orb andb]; [done|].
  replace (maxPages <=? S (w_pageCount v))%nat
    with (negb (S (w_pageCount v) <? maxPages)%nat)
    by (rewrite Nat.ltb_antisym; by destruct (maxPages <=? _)%nat).
  destruct (S (w_pageCount v) <? maxPages)%nat; cbn [negb orb andb]; [|done].
  destruct (truthy (opt_prop (List.last items VUndef) "id")); cbn [negb]; [|done].
  by destruct (w_paginationMode v) as [[]|].
Qed.

Lemma received_nil : received [] = [].
Proof. done. Qed.

Lemma received_cons c cs : received (c :: cs) = reply_items c.2 ++ received cs.
Proof. done. Qed.

Lemma received_app cs1 cs2 : received (cs1 ++ cs2) = received cs1 ++ received cs2.
Proof. unfold received. by rewrite map_app, concat_app. Qed.

Lemma continues_spec n resp :
  continues n resp = true ↔
    page_has_more resp = true ∧ page_items resp ≠ [] ∧ (n < maxPages)%nat
    ∧ truthy (last_id resp) = true.
Proof.
  unfold continues. rewrite !andb_true_iff, negb_true_iff, Nat.eqb_neq, Nat.ltb_lt.
  destruct (page_items resp); cbn [length]; intuition (done || lia).
Qed.

Lemma continues_nullish n resp : nullish resp = true → continues n resp = false.
Proof. by destruct resp. Qed.


Lemma next_qs_next_mode m : next_qs (next_mode m) = next_qs m.
Proof. by destruct m as [[]|]. Qed.

Lemma next_mode_idemp m : next_mode (next_mode m) = next_mode m.
Proof. by destruct m as [[]|]. Qed.

(** A run is known once its outcome is. *)
Lemma run_with_outcome {A S} (r : outcome A * S) (o : outcome A) :
  r.1 = o → r = (o, r.2).
Proof. intros <-. by destruct r. Qed.

(** ** The loop function and the walk relation *)

Section Walk.

Context {World : Type}.
Variable transport : request → World → reply * World.
Variables url apiKey : string.

Local Abbreviation page_request := (page_request url apiKey).
Local Abbreviation requestPage := (requestPage transport url apiKey).
Local Abbreviation walks := (walks transport url apiKey).

Lemma walk_body_run v st :
  walk_body requestPage v st =
    let '(r, w) := transport (page_request (w_qs v)) (world st) in
    let st' := mkState w (calls st ++ [(page_request (w_qs v), r)]) in
    match r with
    | Resolved resp => (walk_next v resp, st')
    | Rejected e => (Throw e, st')
    end.
Proof.
  unfold walk_body, bind, requestPage, httpRequest, lift.
  destruct (transport _ _) as [[resp|e] w]; [|done].
  by destruct (walk_next v resp).
Qed.

(** With enough fuel the loop function follows the relation. *)
Lemma walk_loop_walks fuel v st o st' :
  (w_pageCount v < maxPages)%nat →
  (maxPages - w_pageCount v ≤ fuel)%nat →
  walk_loop fuel requestPage v st = (o, st') →
  ∃ cs, walks v (world st) cs o (world st') ∧ calls st' = calls st ++ cs.
Proof.
  revert v st. induction fuel as [|fuel IH]; intros v st Hpc Hfuel Hrun; [lia|].
  cbn [walk_loop] in Hrun. destruct (w_hasMore v) eqn:Hmore.
  2:{ run_done Hrun. exists []. rewrite app_nil_r.
      split; [by constructor|done]. }
  unfold bind in Hrun. rewrite walk_body_run in Hrun.
  destruct (transport _ _) as [[resp|e] w] eqn:Ht; cbn zeta in Hrun.
  2:{ run_done Hrun. eexists. split; [by apply walks_reject|done]. }
  destruct (nullish resp) eqn:Hn.
  { rewrite walk_next_nullish in Hrun by done. run_done Hrun.
    eexists. split; [by apply walks_fault|done]. }
  rewrite walk_next_eq in Hrun by done.
  destruct (continues _ _) eqn:Hc; cbv beta iota in Hrun.
  2:{ run_done Hrun. eexists. split; [by apply walks_break|done]. }
  assert (S (w_pageCount v) < maxPages)%nat as Hlt.
  { unfold continues in Hc. rewrite !andb_true_iff in Hc.
    destruct Hc as [[[_ _] Hc] _]. by apply Nat.ltb_lt in Hc. }
  apply IH in Hrun as (cs & Hw & Hcalls);
    [|done|cbn [advance w_pageCount]; lia].
  exists ((page_request (w_qs v), Resolved resp) :: cs). split.
  - eapply walks_continue; eauto.
  - rewrite Hcalls. cbn [calls]. by rewrite <- app_assoc.
Qed.


Lemma walks_not_diverge v w cs w' : ¬ walks v w cs Diverge w'.
Proof.
  intros H. remember Diverge as o eqn:Ho.
  induction H; try discriminate; auto.
Qed.

Lemma walks_nil v w o w' : walks v w [] o w' → w_hasMore v = false.
Proof. by inversion 1. Qed.

Lemma walks_more_cons v w cs o w' :
  walks v w cs o w' → w_hasMore v = true → cs ≠ [].
Proof. intros H Hm ->. apply walks_nil in H. congruence. Qed.

(** The accumulated items are the items received, in call order. *)
Lemma walks_items v w cs v' w' :
  walks v w cs (Ok v') w' →
  w_allItems v' = w_allItems v ++ received cs.
Proof.
  intros H. remember (Ok v') as o eqn:Ho. revert v' Ho.
  induction H as [v w| | |v w resp w' Hm Ht Hn Hc
                 |v w resp w' cs o w'' Hm Ht Hn Hc H IH];
    intros v' Ho; try discriminate.
  - injection Ho as <-. by rewrite received_nil, app_nil_r.
  - injection Ho as <-. cbn. by rewrite app_nil_r.
  - rewrite (IH _ Ho), received_cons. cbn. by rewrite app_assoc.
Qed.

(** The response kept in [lastResponse] is that of the last call. *)
Lemma walks_last v w cs v' w' :
  walks v w cs (Ok v') w' →
  w_hasMore v = true →
  ∃ rq, last cs = Some (rq, Resolved (w_lastResponse v'))
        ∧ nullish (w_lastResponse v') = false.
Proof.
  intros H. remember (Ok v') as o eqn:Ho. revert v' Ho.
  induction H as [v w| | |v w resp w' Hm Ht Hn Hc
                 |v w resp w' cs o w'' Hm Ht Hn Hc H IH];
    intros v' Ho Hmore; try discriminate.
  - congruence.
  - injection Ho as <-. eauto.
  - apply continues_spec in Hc as (Hhm & _).
    destruct (IH _ Ho Hhm) as (rq & Hlast & Hnn).
    exists rq. split; [|done]. by rewrite last_cons, Hlast.
Qed.

(** Every call that is followed by another fetched a page that passed
    the continuation predicate; calls are counted from [w_pageCount]. *)
Lemma walks_continuing v w cs o w' :
  walks v w cs o w' →
  ∀ i, (S i < length cs)%nat →
    ∃ rq resp, cs !! i = Some (rq, Resolved resp)
      ∧ continues (S (w_pageCount v + i)) resp = true.
Proof.
  induction 1 as [| | | |v w resp w' cs o w'' Hm Ht Hn Hc H IH];
    intros i Hi; cbn [length] in Hi; try lia.
  destruct i as [|i].
  - do 2 eexists. split; [done|]. by rewrite Nat.add_0_r.
  - destruct (IH i) as (rq & resp' & Hl & Hc'); [lia|].
    exists rq, resp'. split; [done|].
    cbn [advance w_pageCount] in Hc'. by rewrite Nat.add_succ_r.
Qed.

(** The page fetched by the last call did not pass it. *)
Lemma walks_final v w cs o w' :
  walks v w cs o w' →
  ∀ rq resp, last cs = Some (rq, Resolved resp) →
    continues (w_pageCount v + length cs) resp = false.
Proof.
  induction 1 as [| | |v w resp w' Hm Ht Hn Hc
                 |v w resp w' cs o w'' Hm Ht Hn Hc H IH];
    intros rq r Hlast.
  - done.
  - done.
  - cbn in Hlast. simplify_eq. by apply continues_nullish.
  - cbn in Hlast. simplify_eq. cbn [length]. by rewrite Nat.add_1_r.
  - assert (cs ≠ []) as Hne.
    { eapply walks_more_cons; [done|]. by apply continues_spec in Hc as (? & _). }
    rewrite last_cons in Hlast. destruct (last cs) as [c|] eqn:Hl.
    + injection Hlast as ->. specialize (IH _ _ eq_refl).
      cbn [advance w_pageCount length] in *. by rewrite Nat.add_succ_r.
    + by apply last_None in Hl.
Qed.

Lemma walks_length v w cs o w' :
  walks v w cs o w' →
  (w_pageCount v < maxPages)%nat →
  (length cs ≤ maxPages - w_pageCount v)%nat.
Proof.
  induction 1 as [| | | |v w resp w' cs o w'' Hm Ht Hn Hc H IH];
    intros Hpc; cbn [length]; try lia.
  apply continues_spec in Hc as (_ & _ & Hlt & _).
  specialize (IH Hlt). cbn [advance w_pageCount] in IH. lia.
Qed.

(** The first request carries the query of the loop variables, and each
    later one the query [next_qs] makes of its predecessor's. *)
Lemma walks_head v w c cs o w' :
  walks v w (c :: cs) o w' → c.1 = page_request (w_qs v).
Proof. by inversion 1. Qed.

Lemma walks_chain mode0 v w cs o w' :
  walks v w cs o w' →
  next_mode (w_paginationMode v) = next_mode mode0 →
  ∀ i rq r rq' r',
    cs !! i = Some (rq, r) → cs !! S i = Some (rq', r') →
    ∃ resp, r = Resolved resp
      ∧ rq' = page_request (next_qs mode0 (req_qs rq) (last_id resp)).
Proof.
  induction 1 as [| | | |v w resp w' cs o w'' Hm Ht Hn Hc H IH];
    intros Hmode i rq r rq' r' Hi HSi; try done.
  destruct i as [|i].
  - injection Hi as <- <-. exists resp. split; [done|].
    destruct cs as [|c cs]; [done|]. injection HSi as ->.
    apply walks_head in H. cbn [fst advance w_qs] in H. rewrite H.
    by rewrite <- (next_qs_next_mode mode0), <- Hmode, next_qs_next_mode.
  - eapply IH; [|done..]. cbn [advance w_paginationMode].
    by rewrite next_mode_idemp.
Qed.

(** A property of queries that [next_qs] preserves holds of every request
    once it holds of the first. *)
Lemma walks_requests (P : gmap string jsval → Prop) mode0 v w cs o w' :
  walks v w cs o w' →
  next_mode (w_paginationMode v) = next_mode mode0 →
  (∀ qs id, P qs → P (next_qs mode0 qs id)) →
  P (w_qs v) →
  Forall (λ c, P (req_qs c.1)) cs.
Proof.
  intros H Hmode Hstep.
  induction H as [| | | |v w resp w' cs o w'' Hm Ht Hn Hc H IH];
    intros HP; repeat constructor; try done.
  apply IH; cbn [advance w_paginationMode w_qs].
  - by rewrite next_mode_idemp.
  - rewrite <- (next_qs_next_mode (w_paginationMode v)), Hmode, next_qs_next_mode.
    by apply Hstep.
Qed.

(** A walk that ends in an exception ends on a rejected call, or on a
    response that is [null]. *)
Lemma walks_throw v w cs e w' :
  walks v w cs (Throw e) w' →
  ∃ rq r, last cs = Some (rq, r)
    ∧ (r = Rejected e ∨ ∃ resp, r = Resolved resp ∧ nullish resp = true).
Proof.
  intros H. remember (Throw e) as o eqn:Ho.
  induction H as [| | | |v w resp w' cs o w'' Hm Ht Hn Hc H IH];
    try discriminate.
  - injection Ho as ->. do 2 eexists. split; [done|]. by left.
  - do 2 eexists. split; [done|]. right. eauto.
  - destruct (IH Ho) as (rq & r & Hlast & Hr).
    exists rq, r. split; [|done]. by rewrite last_cons, Hlast.
Qed.

(** The relation determines what the loop function computes. *)
Lemma walks_walk_loop v w cs o w' :
  walks v w cs o w' →
  ∀ fuel log,
    (w_pageCount v < maxPages)%nat →
    (maxPages - w_pageCount v ≤ fuel)%nat →
    walk_loop fuel requestPage v (mkState w log) = (o, mkState w' (log ++ cs)).
Proof.
  induction 1 as [v w Hm|v w e w' Hm Ht|v w resp w' Hm Ht Hn
                 |v w resp w' Hm Ht Hn Hc
                 |v w resp w' cs o w'' Hm Ht Hn Hc H IH];
    intros [|fuel] log Hpc Hfuel; try lia;
    cbn [walk_loop]; rewrite Hm; unfold bind;
    rewrite ?walk_body_run; cbn [world calls]; rewrite ?Ht; cbn zeta.
  - by rewrite app_nil_r.
  - done.
  - by rewrite walk_next_nullish.
  - by rewrite walk_next_eq, Hc.
  - rewrite walk_next_eq, Hc by done. cbv beta iota.
    rewrite IH, <- app_assoc; [done|..].
    + by apply continues_spec in Hc as (_ & _ & ? & _).
    + cbn [advance w_pageCount]. lia.
Qed.


End Walk.

(** ** [requestList] in terms of the walk *)

Section RequestList.

Context {World : Type}.
Variable transport : request → World → reply * World.
Variables (url apiKey : string) (itemIndex : Z).

Lemma requestList_fuel_both fuel lo returnAll limit st :
  both_cursors lo = true →
  requestList_fuel transport fuel url lo apiKey itemIndex returnAll limit st
  = (Throw (NodeOperationError both_cursors_message itemIndex), st).
Proof.
  unfold both_cursors, requestList_fuel. by intros ->.
Qed.

Lemma requestList_single_run fuel lo limit st :
  both_cursors lo = false →
  requestList_fuel transport fuel url lo apiKey itemIndex false limit st =
    let rq := page_request url apiKey (initial_qs lo (default 50 limit)) in
    let '(r, w) := transport rq (world st) in
    let st' := mkState w (calls st ++ [(rq, r)]) in
    match r with
    | Resolved resp => (clip_page limit resp, st')
    | Rejected e => (Throw e, st')
    end.
Proof.
  unfold both_cursors, requestList_fuel. intros ->. cbn [negb].
  unfold bind, httpRequest, lift, initial_qs, page_request. cbn zeta.
  destruct (transport _ _) as [[resp|e] w]; [|done].
  by destruct (clip_page limit resp).
Qed.

Lemma requestList_all_run fuel lo limit st o st' :
  both_cursors lo = false →
  (maxPages ≤ fuel)%nat →
  requestList_fuel transport fuel url lo apiKey itemIndex true limit st
  = (o, st') →
  ∃ cs ow,
    walks transport url apiKey (initial_walk lo) (world st) cs ow (world st')
    ∧ calls st' = calls st ++ cs
    ∧ o = obind ow (λ v, Ok (finish v)).
Proof.
  unfold both_cursors, requestList_fuel. intros -> Hfuel. cbn [negb].
  unfold bind. cbn zeta.
  change (walk_loop fuel _ ?v st) with
    (walk_loop fuel (requestPage transport url apiKey) v st).
  destruct (walk_loop _ _ _ _) as [ow st1] eqn:Hloop.
  apply walk_loop_walks in Hloop as (cs & Hw & Hcalls);
    [|cbn [w_pageCount]; unfold maxPages; lia|cbn [w_pageCount]; lia].
  intros Hrun. exists cs, ow.
  destruct ow as [v|e|]; cbn [obind].
  - unfold finish. destruct (_ && _); run_done Hrun; eauto.
  - run_done Hrun; eauto.
  - by apply walks_not_diverge in Hw.
Qed.

End RequestList.

(** ** The loop of the dropdown loader *)

Lemma project_items_app l1 l2 :
  project_items (l1 ++ l2) = project_items l1 ++ project_items l2.
Proof. apply omap_app. Qed.

(** Whatever the response, a pass that does not throw pushes the projection
    of the items of the page, counts the page, and continues only below the
    bound. *)
Lemma load_next_ok v resp c v' :
  load_next v resp = Ok (c, v') →
  l_returnData v' = l_returnData v ++ project_items (page_items resp)
  ∧ l_pageCount v' = S (l_pageCount v)
  ∧ (c = Continue → (S (l_pageCount v) < loaderMaxPages)%nat).
Proof.
  unfold load_next, page_items.
  destruct (opt_prop resp "data") as [| | | | |l|] eqn:Hd;
    cbn [coalesce nullish obind]; try discriminate.
  1,2,3: intros [= <- <-]; cbn; by rewrite app_nil_r.
  destruct l as [|x l].
  - cbn [obind]. intros [= <- <-]. cbn. by rewrite app_nil_r.
  - destruct (get_prop _ "id") as [id| |]; cbn [obind]; try discriminate.
    destruct (truthy id); cbn [negb orb].
    + destruct (loaderMaxPages <=? S (l_pageCount v))%nat eqn:E;
        intros [= <- <-]; cbn [l_returnData l_pageCount]; repeat split; try done.
      intros _. by apply Nat.leb_gt in E.
    + intros [= <- <-]. done.
Qed.

Lemma load_next_not_diverge v resp : load_next v resp ≠ Diverge.
Proof.
  unfold load_next.
  destruct (coalesce _ _) as [| | | | |[|x l]|]; cbn [obind]; try done.
  destruct (get_prop _ _) as [id|e|] eqn:Hid; cbn [obind]; try done.
  - by destruct (negb _ || _).
  - by apply get_prop_not_diverge in Hid.
Qed.


Section Loader.

Context {World : Type}.
Variable transport : request → World → reply * World.
Variables endpoint apiKey : string.

Local Abbreviation load_request := (load_request endpoint apiKey).

Lemma load_body_run v st :
  load_body transport endpoint apiKey v st =
    let '(r, w) := transport (load_request (l_after v)) (world st) in
    let st' := mkState w (calls st ++ [(load_request (l_after v), r)]) in
    match r with
    | Resolved resp => (load_next v resp, st')
    | Rejected e => (Throw e, st')
    end.
Proof.
  unfold load_body, bind, httpRequest, lift, load_request.
  destruct (transport _ _) as [[resp|e] w]; [|done].
  by destruct (load_next v resp).
Qed.

(** With [loaderMaxPages] units of fuel the loop ends, having issued at
    most that many calls, and its list is the projection of the items
    received, in call order. *)
Lemma load_loop_run fuel v st o st' :
  (l_pageCount v < loaderMaxPages)%nat →
  (loaderMaxPages - l_pageCount v ≤ fuel)%nat →
  load_loop transport fuel endpoint apiKey v st = (o, st') →
  o ≠ Diverge
  ∧ ∃ cs, calls st' = calls st ++ cs
      ∧ (length cs ≤ loaderMaxPages - l_pageCount v)%nat
      ∧ ∀ v', o = Ok v' →
          l_returnData v' = l_returnData v ++ project_items (received cs).
Proof.
  revert v st. induction fuel as [|fuel IH]; intros v st Hpc Hfuel Hrun; [lia|].
  cbn [load_loop] in Hrun. destruct (l_hasMore v).
  2:{ run_done Hrun. split; [done|]. exists []. rewrite !app_nil_r.
      split_and!; [done|cbn [length]; lia|].
      intros v' [= <-]. cbn. by rewrite ?app_nil_r. }
  unfold bind in Hrun. rewrite load_body_run in Hrun.
  destruct (transport _ _) as [[resp|e] w]; cbn zeta in Hrun.
  2:{ run_done Hrun. split; [done|]. eexists.
      split_and!; [done|cbn [length]; lia|done]. }
  destruct (load_next v resp) as [[c v1]|e|] eqn:Hnext.
  3:{ by apply load_next_not_diverge in Hnext. }
  2:{ run_done Hrun. split; [done|]. eexists.
      split_and!; [done|cbn [length]; lia|done]. }
  apply load_next_ok in Hnext as (Hdata & Hcount & Hcont).
  destruct c; cbv beta iota in Hrun.
  - run_done Hrun. split; [done|]. eexists.
    split_and!; [done|cbn [length]; lia|].
    intros v' [= <-]. rewrite Hdata, received_cons, received_nil.
    cbn [snd reply_items]. by rewrite app_nil_r.
  - specialize (Hcont eq_refl).
    apply IH in Hrun as (Hnd & cs & Hcalls & Hlen & Hdata'); [|lia..].
    split; [done|]. exists ((load_request (l_after v), Resolved resp) :: cs).
    cbn [calls] in Hcalls. rewrite <- app_assoc in Hcalls.
    split_and!; [done|cbn [length]; lia|].
    intros v' Hv'. rewrite (Hdata' _ Hv'), Hdata, received_cons.
    cbn [snd reply_items]. by rewrite project_items_app, app_assoc.
Qed.



End Loader.

(** ** The first query *)

Lemma initial_qs_limit lo pageSize :
  initial_qs lo pageSize !! "limit" = Some (VNum pageSize).
Proof.
  unfold initial_qs.
  destruct (set_cursor (after lo)), (set_cursor (before lo)); by simplify_map_eq.
Qed.

Lemma initial_qs_before lo pageSize :
  initial_qs lo pageSize !! "before"
  = if set_cursor (before lo) then Some (VStr (default "" (before lo))) else None.
Proof.
  unfold initial_qs.
  destruct (set_cursor (after lo)), (set_cursor (before lo)); by simplify_map_eq.
Qed.

Lemma initial_qs_after lo pageSize :
  initial_qs lo pageSize !! "after"
  = if set_cursor (after lo) then Some (VStr (default "" (after lo))) else None.
Proof.
  unfold initial_qs.
  destruct (set_cursor (after lo)), (set_cursor (before lo)); by simplify_map_eq.
Qed.

Lemma next_qs_limit mode qs id : next_qs mode qs id !! "limit" = qs !! "limit".
Proof. destruct mode as [[]|]; by simplify_map_eq. Qed.

(** ** Properties of [requestList] and [paginatedLoadOptions] *)

(** C3: when both the [after] and the [before] cursor are set (non-empty
    strings), [requestList] throws the [NodeOperationError] that carries the
    item index, whatever [returnAll] and [limit] are, and the state is the
    one it started from: no call was logged and the upstream did not move. *)
Theorem requestList_rejects_both_cursors {World}
    (transport : request → World → reply * World)
    (url : string) (lo : ListOptions) (apiKey : string) (itemIndex : Z)
    (returnAll : bool) (limit : option Z) (st : state World) :
  set_cursor (after lo) = true →
  set_cursor (before lo) = true →
  requestList transport url lo apiKey itemIndex returnAll limit st
  = (Throw (NodeOperationError both_cursors_message itemIndex), st).
Proof.
  intros Ha Hb. apply requestList_fuel_both. unfold both_cursors.
  by rewrite Ha, Hb.
Qed.

Lemma requestList_rejects_both_cursors_witness :
  requestList scripted "https://api.resend.com/emails"
    (mkListOptions (Some "a1") (Some "b1")) "key" 3 true (Some 10)
    (init [page [] false])
  = (Throw (NodeOperationError both_cursors_message 3), init [page [] false]).
Proof.
  apply (requestList_rejects_both_cursors scripted); reflexivity.
Defined.

(** C6, as stated, fails: with [returnAll = false] and [limit = 0] the one
    request carries [limit = 0], not the default 50. *)
Lemma single_page_zero_limit_is_sent :
  let r := requestList (constantly (page [] false)) "https://api.resend.com/emails"
             (mkListOptions None None) "key" 0 false (Some 0) (init tt) in
  limits_sent (calls r.2) = [Some (VNum 0)]
  ∧ limits_sent (calls r.2) ≠ [Some (VNum (spec_single_limit (Some 0)))].
Proof. vm_compute. split; [reflexivity|discriminate]. Qed.

(** C6, amended: in single-page mode the one request carries the caller's
    [limit] whenever one is provided, whatever its sign, and 50 when none
    is; in full-aggregation mode every request carries 100. *)
Theorem requestList_limit_sent {World}
    (transport : request → World → reply * World)
    (url : string) (lo : ListOptions) (apiKey : string) (itemIndex : Z)
    (returnAll : bool) (limit : option Z) (w : World) o st' :
  both_cursors lo = false →
  requestList transport url lo apiKey itemIndex returnAll limit (init w)
  = (o, st') →
  if returnAll
  then Forall (λ l, l = Some (VNum 100)) (limits_sent (calls st'))
  else limits_sent (calls st') = [Some (VNum (default 50 limit))].
Proof.
  intros Hboth Hrun. destruct returnAll.
  - apply requestList_all_run in Hrun as (cs & ow & Hw & Hcalls & _); [|done..].
    cbn in Hcalls. subst cs. unfold limits_sent. rewrite Forall_map.
    eapply (walks_requests _ _ _ (λ qs, qs !! "limit" = Some (VNum 100))
              (initial_mode lo)); [done|done|..].
    + intros qs id. by rewrite next_qs_limit.
    + apply initial_qs_limit.
  - unfold requestList in Hrun. rewrite requestList_single_run in Hrun by done.
    cbn zeta in Hrun. destruct (transport _ _) as [[resp|e] w'].
    all: injection Hrun as _ <-; cbn; by rewrite initial_qs_limit.
Qed.

Lemma requestList_limit_sent_witness :
  limits_sent
    (calls (requestList (constantly (page [] false)) "https://api.resend.com/emails"
              (mkListOptions None None) "key" 0 false (Some (-3)) (init tt)).2)
  = [Some (VNum (-3))].
Proof.
  set (r := requestList _ _ _ _ _ _ _ _).
  exact (requestList_limit_sent (constantly (page [] false))
           "https://api.resend.com/emails" (mkListOptions None None) "key" 0
           false (Some (-3)) tt r.1 r.2 eq_refl (surjective_pairing r)).
Defined.

(** C7: in single-page mode with a positive [limit], when the [data] array
    of the upstream response holds more than [limit] items, [requestList]
    returns that response with [data] cut to its first [limit] items, in
    their order; it has issued the one call and no other, and every other
    field of the response, [has_more] among them, is the upstream's. *)
Theorem requestList_single_page_truncates {World}
    (transport : request → World → reply * World)
    (url : string) (lo : ListOptions) (apiKey : string) (itemIndex : Z)
    (limit : Z) (st : state World) (resp : jsval) (w' : World)
    (items : list jsval) :
  both_cursors lo = false →
  0 < limit →
  transport (page_request url apiKey (initial_qs lo limit)) (world st)
  = (Resolved resp, w') →
  opt_prop resp "data" = VArr items →
  limit < Z.of_nat (length items) →
  ∃ res,
    requestList transport url lo apiKey itemIndex false (Some limit) st
    = (Ok res,
       mkState w'
         (calls st ++ [(page_request url apiKey (initial_qs lo limit), Resolved resp)]))
    ∧ opt_prop res "data" = VArr (take (Z.to_nat limit) items)
    ∧ Z.of_nat (length (take (Z.to_nat limit) items)) = limit
    ∧ opt_prop res "has_more" = opt_prop resp "has_more"
    ∧ ∀ k, k ≠ "data" → opt_prop res k = opt_prop resp k.
Proof.
  intros Hboth Hpos Ht Hdata Hlen.
  destruct (opt_prop_array_obj _ _ _ Hdata) as (fs & ->).
  exists (set_prop (VObj fs) "data" (VArr (take (Z.to_nat limit) items))).
  split_and!.
  - unfold requestList. rewrite requestList_single_run by done.
    cbv zeta. change (default 50 (Some limit)) with limit.
    rewrite Ht. unfold clip_page.
    apply Z.ltb_lt in Hpos as ->.
    rewrite get_prop_opt_prop by done. cbn [obind]. rewrite Hdata.
    by apply Z.ltb_lt in Hlen as ->.
  - apply opt_prop_set_eq.
  - rewrite length_take. lia.
  - by rewrite opt_prop_set_ne.
  - intros k Hk. by rewrite opt_prop_set_ne.
Qed.

Lemma requestList_single_page_truncates_witness :
  let ids := ["i1"; "i2"; "i3"; "i4"; "i5"; "i6"; "i7"; "i8"] in
  let lo := mkListOptions None None in
  let url := "https://api.resend.com/emails" in
  ∃ res,
    requestList scripted url lo "key" 0 false (Some 5)
      (init [page (item_of_id <$> ids) true])
    = (Ok res,
       mkState []
         ([] ++ [(page_request url "key" (initial_qs lo 5),
                  Resolved (page (item_of_id <$> ids) true))]))
    ∧ opt_prop res "data" = VArr (take (Z.to_nat 5) (item_of_id <$> ids))
    ∧ Z.of_nat (length (take (Z.to_nat 5) (item_of_id <$> ids))) = 5
    ∧ opt_prop res "has_more" = opt_prop (page (item_of_id <$> ids) true) "has_more"
    ∧ ∀ k, k ≠ "data" → opt_prop res k = opt_prop (page (item_of_id <$> ids) true) k.
Proof.
  intros ids lo url.
  apply (requestList_single_page_truncates scripted url lo "key" 0 5
           (init [page (item_of_id <$> ids) true])
           (page (item_of_id <$> ids) true) [] (item_of_id <$> ids));
    [reflexivity|lia|reflexivity|reflexivity|vm_compute; reflexivity].
Defined.

(** *** The result of a full aggregation *)

Lemma finish_array v fs :
  w_lastResponse v = VObj fs →
  isArray (opt_prop (VObj fs) "data") = true →
  finish v
  = set_prop (set_prop (VObj fs) "data" (VArr (w_allItems v)))
      "has_more" (VBool false).
Proof. unfold finish. by intros -> ->. Qed.

Lemma finish_not_array v :
  isArray (opt_prop (w_lastResponse v) "data") = false →
  finish v = empty_list_result (w_allItems v).
Proof. unfold finish. intros ->. by rewrite andb_false_r. Qed.

Lemma finish_data v :
  opt_prop (finish v) "data" = VArr (w_allItems v)
  ∧ opt_prop (finish v) "has_more" = VBool false.
Proof.
  unfold finish. destruct (truthy _ && isArray _) eqn:E; [|done].
  apply andb_true_iff in E as [_ E].
  destruct (opt_prop (w_lastResponse v) "data") eqn:Hd; try done.
  apply opt_prop_array_obj in Hd as (fs & ->). cbn [set_prop opt_prop]. split.
  - by rewrite assoc_get_set_ne, assoc_get_set_eq.
  - by rewrite assoc_get_set_eq.
Qed.

(** A full aggregation whose last call was answered by a response other
    than [null] returns, and what it returns is [finish] of loop variables
    that hold that response and every item received. *)
Lemma requestList_all_ok {World}
    (transport : request → World → reply * World)
    url lo apiKey itemIndex limit (w : World) o st' cs0 rq resp :
  requestList transport url lo apiKey itemIndex true limit (init w) = (o, st') →
  calls st' = cs0 ++ [(rq, Resolved resp)] →
  nullish resp = false →
  ∃ v, o = Ok (finish v)
    ∧ w_lastResponse v = resp
    ∧ w_allItems v = received (calls st').
Proof.
  intros Hrun Hcalls Hnn.
  destruct (both_cursors lo) eqn:Hboth.
  { unfold requestList in Hrun. rewrite requestList_fuel_both in Hrun by done.
    injection Hrun as _ <-. by destruct cs0. }
  apply requestList_all_run in Hrun as (cs & ow & Hw & Hcs & ->); [|done..].
  cbn in Hcs. subst cs. rewrite Hcalls in *.
  destruct ow as [v|e|]; cbn [obind].
  - exists v. split; [done|].
    apply walks_last in Hw as Hlast; [|done].
    destruct Hlast as (rq' & Hlast & _). rewrite last_snoc in Hlast.
    apply walks_items in Hw. by simplify_eq.
  - apply walks_throw in Hw as (rq' & r & Hlast & Hr).
    rewrite last_snoc in Hlast. simplify_eq.
    destruct Hr as [|(resp' & ? & ?)]; [done|]. simplify_eq. congruence.
  - by apply walks_not_diverge in Hw.
Qed.

(** C10: in full-aggregation mode, when the last response fetched has an
    array for [data], [requestList] returns that response object with
    [data] replaced by all the items received and [has_more] set to
    [false]; the fields under every other key are returned as they came,
    in their order. *)
Theorem requestList_all_frame {World}
    (transport : request → World → reply * World)
    (url : string) (lo : ListOptions) (apiKey : string) (itemIndex : Z)
    (limit : option Z) (w : World) o st' cs0 rq resp :
  requestList transport url lo apiKey itemIndex true limit (init w) = (o, st') →
  calls st' = cs0 ++ [(rq, Resolved resp)] →
  isArray (opt_prop resp "data") = true →
  ∃ fs fs',
    resp = VObj fs
    ∧ o = Ok (VObj fs')
    ∧ VObj fs' = set_prop (set_prop resp "data" (VArr (received (calls st'))))
                   "has_more" (VBool false)
    ∧ assoc_get "data" fs' = Some (VArr (received (calls st')))
    ∧ assoc_get "has_more" fs' = Some (VBool false)
    ∧ (∀ k, k ≠ "data" → k ≠ "has_more" → assoc_get k fs' = assoc_get k fs)
    ∧ filter (λ f, f.1 ≠ "data" ∧ f.1 ≠ "has_more") fs'
      = filter (λ f, f.1 ≠ "data" ∧ f.1 ≠ "has_more") fs.
Proof.
  intros Hrun Hcalls Harr.
  destruct (opt_prop resp "data") as [| | | | |l|] eqn:Hd; try done.
  destruct (opt_prop_array_obj _ _ _ Hd) as (fs & ->).
  destruct (requestList_all_ok _ _ _ _ _ _ _ _ _ _ _ _ Hrun Hcalls eq_refl)
    as (v & -> & Hlast & Hitems).
  rewrite (finish_array v fs), Hitems by (done || by rewrite Hd).
  eexists fs, _. split_and!; try done.
  - by rewrite assoc_get_set_ne, assoc_get_set_eq.
  - by rewrite assoc_get_set_eq.
  - intros k H1 H2. by rewrite !assoc_get_set_ne.
  - pose proof (assoc_set_filter (λ k, k ≠ "data" ∧ k ≠ "has_more")) as Hf.
    cbn beta in Hf. rewrite !Hf; [done|..]; by intros [? ?].
Qed.

Lemma requestList_all_frame_witness :
  let r1 := VObj [("object", VStr "list"); ("has_more", VBool true);
                  ("data", VArr [item_of_id "a"]); ("total", VNum 3)] in
  let r2 := VObj [("data", VArr [item_of_id "b"]); ("note", VStr "end")] in
  let run := requestList scripted "https://api.resend.com/emails"
               (mkListOptions None None) "key" 0 true None (init [r1; r2]) in
  ∃ fs fs',
    r2 = VObj fs
    ∧ run.1 = Ok (VObj fs')
    ∧ VObj fs' = set_prop (set_prop r2 "data" (VArr (received (calls run.2))))
                   "has_more" (VBool false)
    ∧ assoc_get "data" fs' = Some (VArr (received (calls run.2)))
    ∧ assoc_get "has_more" fs' = Some (VBool false)
    ∧ (∀ k, k ≠ "data" → k ≠ "has_more" → assoc_get k fs' = assoc_get k fs)
    ∧ filter (λ f, f.1 ≠ "data" ∧ f.1 ≠ "has_more") fs'
      = filter (λ f, f.1 ≠ "data" ∧ f.1 ≠ "has_more") fs.
Proof.
  intros r1 r2 run.
  eapply (requestList_all_frame scripted _ _ _ _ _ _ run.1 run.2
            [(_, Resolved r1)] _ r2).
  - apply surjective_pairing.
  - vm_compute. reflexivity.
  - reflexivity.
Defined.

(** C8, as stated, fails: after a first page of one item, a final response
    without a [data] array makes [requestList] return a list result that
    holds that item, not an empty item sequence. *)
Lemma non_array_final_response_keeps_items :
  let r1 := page [item_of_id "a"] true in
  let r2 := VObj [("message", VStr "unexpected")] in
  let run := requestList scripted "https://api.resend.com/emails"
               (mkListOptions None None) "key" 0 true None (init [r1; r2]) in
  map snd (calls run.2) = [Resolved r1; Resolved r2]
  ∧ isArray (opt_prop r2 "data") = false
  ∧ run.1 = Ok (empty_list_result [item_of_id "a"])
  ∧ run.1 ≠ Ok (empty_list_result []).
Proof. vm_compute. split_and!; try reflexivity. discriminate. Qed.

(** C8, amended: in full-aggregation mode, when the last response fetched
    is not [null] and its [data] is not an array, [requestList] returns a
    fresh object with [object = "list"], [has_more = false] and, as [data],
    the items received from the earlier calls; that sequence is empty when
    the response was the first. *)
Theorem requestList_all_non_array_final {World}
    (transport : request → World → reply * World)
    (url : string) (lo : ListOptions) (apiKey : string) (itemIndex : Z)
    (limit : option Z) (w : World) o st' cs0 rq resp :
  requestList transport url lo apiKey itemIndex true limit (init w) = (o, st') →
  calls st' = cs0 ++ [(rq, Resolved resp)] →
  nullish resp = false →
  isArray (opt_prop resp "data") = false →
  o = Ok (VObj [("object", VStr "list"); ("data", VArr (received cs0));
                ("has_more", VBool false)])
  ∧ (cs0 = [] →
     o = Ok (VObj [("object", VStr "list"); ("data", VArr []);
                   ("has_more", VBool false)])).
Proof.
  intros Hrun Hcalls Hnn Harr.
  destruct (requestList_all_ok _ _ _ _ _ _ _ _ _ _ _ _ Hrun Hcalls Hnn)
    as (v & -> & Hlast & Hitems).
  assert (page_items resp = []) as Hempty.
  { unfold page_items. by destruct (opt_prop resp "data"). }
  rewrite finish_not_array, Hitems, Hcalls, received_app by by rewrite Hlast.
  rewrite received_cons, received_nil. cbn [snd reply_items].
  rewrite Hempty, !app_nil_r. split; [done|]. by intros ->.
Qed.

Lemma requestList_all_non_array_final_witness :
  let r1 := page [item_of_id "a"] true in
  let r2 := VObj [("message", VStr "unexpected")] in
  let url := "https://api.resend.com/emails" in
  let lo := mkListOptions None None in
  let run := requestList scripted url lo "key" 0 true None (init [r1; r2]) in
  run.1 = Ok (VObj [("object", VStr "list");
                    ("data", VArr (received [(page_request url "key" (initial_qs lo 100),
                                              Resolved r1)]));
                    ("has_more", VBool false)])
  ∧ ([(page_request url "key" (initial_qs lo 100), Resolved r1)] = [] →
     run.1 = Ok (VObj [("object", VStr "list"); ("data", VArr []);
                       ("has_more", VBool false)])).
Proof.
  intros r1 r2 url lo run.
  eapply (requestList_all_non_array_final scripted url lo "key" 0 None
            [r1; r2] run.1 run.2 _ _ r2).
  - apply surjective_pairing.
  - vm_compute. reflexivity.
  - reflexivity.
  - reflexivity.
Defined.

(** *** Three pages of 100, 100 and 37 items *)

Lemma page_items_page p hm : page_items (page p hm) = p.
Proof. done. Qed.

Lemma continues_page n p hm :
  continues n (page p hm)
  = hm && negb (length p =? 0)%nat && (n <? maxPages)%nat
    && truthy (opt_prop (List.last p VUndef) "id").
Proof. by destruct hm. Qed.

Lemma requestList_all_of_walks {World}
    (transport : request → World → reply * World)
    url lo apiKey itemIndex limit w log cs v w' :
  both_cursors lo = false →
  walks transport url apiKey (initial_walk lo) w cs (Ok v) w' →
  requestList transport url lo apiKey itemIndex true limit (mkState w log)
  = (Ok (finish v), mkState w' (log ++ cs)).
Proof.
  intros Hboth Hw. unfold requestList, requestList_fuel.
  unfold both_cursors in Hboth. rewrite Hboth. cbn [negb]. unfold bind. cbv zeta.
  change (walk_loop maxPages _ ?v0 ?st) with
    (walk_loop maxPages (requestPage transport url apiKey) v0 st).
  apply walks_walk_loop with (fuel := maxPages) (log := log) in Hw as Hrun;
    [|cbn [initial_walk w_pageCount]; unfold maxPages; lia
     |cbn [initial_walk w_pageCount]; lia].
  unfold initial_walk, initial_qs, initial_mode in Hrun. rewrite Hrun.
  unfold finish. destruct (truthy _ && isArray _); reflexivity.
Qed.

Lemma scripted_three_pages url apiKey lo p1 p2 p3 rest :
  p1 ≠ [] → p2 ≠ [] →
  truthy (opt_prop (List.last p1 VUndef) "id") = true →
  truthy (opt_prop (List.last p2 VUndef) "id") = true →
  ∃ q1 q2 q3,
    walks scripted url apiKey (initial_walk lo)
      ([page p1 true; page p2 true; page p3 false] ++ rest)
      [(q1, Resolved (page p1 true)); (q2, Resolved (page p2 true));
       (q3, Resolved (page p3 false))]
      (Ok (stay (advance (advance (initial_walk lo) (page p1 true)) (page p2 true))
             (page p3 false)))
      rest.
Proof.
  intros Hp1 Hp2 Hid1 Hid2. do 3 eexists.
  eapply walks_continue; [done|done|done|..].
  { rewrite continues_page, Hid1. by destruct p1. }
  eapply walks_continue; [done|done|done|..].
  { rewrite continues_page, Hid2. by destruct p2. }
  eapply walks_break; done.
Qed.

(** C1: a full aggregation that returns has, as [data], the items of all
    the pages it received, page after page in call order and as they came,
    and [has_more = false].  For an upstream that serves pages of 100, 100
    and 37 items with [has_more] true, true and false, it issues three
    calls and returns the 237 items in that order. *)
Theorem requestList_all_in_call_order {World}
    (transport : request → World → reply * World)
    (url : string) (lo : ListOptions) (apiKey : string) (itemIndex : Z)
    (limit : option Z) (w : World) res st' (p1 p2 p3 rest : list jsval) :
  requestList transport url lo apiKey itemIndex true limit (init w)
  = (Ok res, st') →
  length p1 = 100%nat → length p2 = 100%nat → length p3 = 37%nat →
  truthy (opt_prop (List.last p1 VUndef) "id") = true →
  truthy (opt_prop (List.last p2 VUndef) "id") = true →
  (opt_prop res "data" = VArr (received (calls st'))
   ∧ opt_prop res "has_more" = VBool false)
  ∧ ∃ st3,
      requestList scripted url lo apiKey itemIndex true limit
        (init ([page p1 true; page p2 true; page p3 false] ++ rest))
      = (Ok (page (p1 ++ p2 ++ p3) false), st3)
      ∧ map snd (calls st3)
        = [Resolved (page p1 true); Resolved (page p2 true);
           Resolved (page p3 false)]
      ∧ length (calls st3) = 3%nat
      ∧ world st3 = rest
      ∧ length (p1 ++ p2 ++ p3) = 237%nat.
Proof.
  intros Hrun Hl1 Hl2 Hl3 Hid1 Hid2.
  assert (both_cursors lo = false) as Hboth.
  { destruct (both_cursors lo) eqn:E; [|done].
    unfold requestList in Hrun. by rewrite requestList_fuel_both in Hrun. }
  split.
  - apply requestList_all_run in Hrun as (cs & ow & Hw & Hcalls & Ho); [|done..].
    cbn in Hcalls. subst cs. destruct ow as [v| |]; try done.
    injection Ho as ->. apply walks_items in Hw. cbn in Hw. rewrite <- Hw.
    apply finish_data.
  - destruct (scripted_three_pages url apiKey lo p1 p2 p3 rest)
      as (q1 & q2 & q3 & Hw);
      [intros ->; discriminate|intros ->; discriminate|assumption..|].
    eexists. split_and!.
    + unfold init. rewrite (requestList_all_of_walks _ _ _ _ _ _ _ _ _ _ _ Hboth Hw).
      f_equal. f_equal. unfold finish. cbn. by rewrite <- app_assoc.
    + done.
    + done.
    + done.
    + rewrite !length_app. lia.
Qed.

Lemma requestList_all_in_call_order_witness :
  let p1 := replicate 100 (item_of_id "a") in
  let p2 := replicate 100 (item_of_id "b") in
  let p3 := replicate 37 (item_of_id "c") in
  let url := "https://api.resend.com/emails" in
  let lo := mkListOptions None None in
  let script := [page p1 true; page p2 true; page p3 false] in
  let run := requestList scripted url lo "key" 0 true None (init script) in
  (opt_prop (page (p1 ++ p2 ++ p3) false) "data" = VArr (received (calls run.2))
   ∧ opt_prop (page (p1 ++ p2 ++ p3) false) "has_more" = VBool false)
  ∧ ∃ st3,
      requestList scripted url lo "key" 0 true None (init (script ++ []))
      = (Ok (page (p1 ++ p2 ++ p3) false), st3)
      ∧ map snd (calls st3)
        = [Resolved (page p1 true); Resolved (page p2 true);
           Resolved (page p3 false)]
      ∧ length (calls st3) = 3%nat
      ∧ world st3 = []
      ∧ length (p1 ++ p2 ++ p3) = 237%nat.
Proof.
  intros p1 p2 p3 url lo script run.
  apply (requestList_all_in_call_order scripted url lo "key" 0 None script
           (page (p1 ++ p2 ++ p3) false) run.2 p1 p2 p3 []);
    [|reflexivity..].
  apply run_with_outcome. vm_compute. reflexivity.
Defined.

(** *** Where the walk stops *)

(** C2: in a full aggregation a page without items, whatever its
    [has_more], is the last one fetched, and (the response not being [null])
    the result holds the items of the earlier pages, as they came, with
    [has_more = false].  More generally every call that is followed by
    another fetched a page with [has_more] set, at least one item, a call
    count below the bound and a usable [id] on its last item, and the page
    of the last call fails one of the four. *)
Theorem requestList_all_stops_on_empty_page {World}
    (transport : request → World → reply * World)
    (url : string) (lo : ListOptions) (apiKey : string) (itemIndex : Z)
    (limit : option Z) (w : World) o st' :
  requestList transport url lo apiKey itemIndex true limit (init w) = (o, st') →
  (∀ i rq resp,
     calls st' !! i = Some (rq, Resolved resp) →
     page_items resp = [] →
     length (calls st') = S i
     ∧ (nullish resp = false →
        ∃ res, o = Ok res
          ∧ opt_prop res "data" = VArr (received (take i (calls st')))
          ∧ opt_prop res "has_more" = VBool false))
  ∧ (∀ i, (S i < length (calls st'))%nat →
       ∃ rq resp, calls st' !! i = Some (rq, Resolved resp)
         ∧ page_has_more resp = true
         ∧ page_items resp ≠ []
         ∧ (S i < maxPages)%nat
         ∧ truthy (last_id resp) = true)
  ∧ (∀ rq resp,
       last (calls st') = Some (rq, Resolved resp) →
       ¬ (page_has_more resp = true
          ∧ page_items resp ≠ []
          ∧ (length (calls st') < maxPages)%nat
          ∧ truthy (last_id resp) = true)).
Proof.
  intros Hrun.
  assert (∀ i, (S i < length (calls st'))%nat →
            ∃ rq resp, calls st' !! i = Some (rq, Resolved resp)
              ∧ continues (S i) resp = true) as Hcont.
  { destruct (both_cursors lo) eqn:Hboth.
    - unfold requestList in Hrun. rewrite requestList_fuel_both in Hrun by done.
      injection Hrun as _ <-. cbn. lia.
    - apply requestList_all_run in Hrun as (cs & ow & Hw & Hcalls & _); [|done..].
      cbn in Hcalls. subst cs. intros i Hi.
      by apply (walks_continuing _ _ _ _ _ _ _ _ Hw) in Hi. }
  split_and!.
  - intros i rq resp Hi Hempty.
    assert (length (calls st') = S i) as Hlen.
    { apply lookup_lt_Some in Hi as Hlt.
      destruct (decide (S i < length (calls st'))%nat) as [Hlt'|]; [|lia].
      destruct (Hcont i Hlt') as (rq' & resp' & Hi' & Hc).
      apply continues_spec in Hc as (_ & Hne & _). congruence. }
    split; [done|]. intros Hnn.
    assert (calls st' = take i (calls st') ++ [(rq, Resolved resp)]) as Hsplit.
    { rewrite <- (take_S_r _ _ _ Hi), <- Hlen. by rewrite firstn_all. }
    destruct (requestList_all_ok _ _ _ _ _ _ _ _ _ _ _ _ Hrun Hsplit Hnn)
      as (v & -> & _ & Hitems).
    exists (finish v). split; [done|].
    destruct (finish_data v) as [-> ->]. split; [|done].
    rewrite Hitems. rewrite Hsplit at 1.
    rewrite received_app, received_cons, received_nil. cbn [snd reply_items].
    by rewrite Hempty, !app_nil_r.
  - intros i Hi. destruct (Hcont i Hi) as (rq & resp & Hl & Hc).
    apply continues_spec in Hc. eauto.
  - intros rq resp Hlast Hall.
    destruct (both_cursors lo) eqn:Hboth.
    + unfold requestList in Hrun. rewrite requestList_fuel_both in Hrun by done.
      injection Hrun as _ <-. done.
    + apply requestList_all_run in Hrun as (cs & ow & Hw & Hcalls & _); [|done..].
      cbn in Hcalls. subst cs.
      apply (walks_final _ _ _ _ _ _ _ _ Hw) in Hlast.
      apply continues_spec in Hall. cbn in Hlast. congruence.
Qed.

Lemma requestList_all_stops_on_empty_page_witness :
  let script := [page [item_of_id "a"] true; page [] true;
                 page [item_of_id "b"] false] in
  let run := requestList scripted "https://api.resend.com/emails"
               (mkListOptions None None) "key" 0 true None (init script) in
  (∀ i rq resp,
     calls run.2 !! i = Some (rq, Resolved resp) →
     page_items resp = [] →
     length (calls run.2) = S i
     ∧ (nullish resp = false →
        ∃ res, run.1 = Ok res
          ∧ opt_prop res "data" = VArr (received (take i (calls run.2)))
          ∧ opt_prop res "has_more" = VBool false))
  ∧ (∀ i, (S i < length (calls run.2))%nat →
       ∃ rq resp, calls run.2 !! i = Some (rq, Resolved resp)
         ∧ page_has_more resp = true
         ∧ page_items resp ≠ []
         ∧ (S i < maxPages)%nat
         ∧ truthy (last_id resp) = true)
  ∧ (∀ rq resp,
       last (calls run.2) = Some (rq, Resolved resp) →
       ¬ (page_has_more resp = true
          ∧ page_items resp ≠ []
          ∧ (length (calls run.2) < maxPages)%nat
          ∧ truthy (last_id resp) = true)).
Proof.
  intros script run.
  apply (requestList_all_stops_on_empty_page scripted
           "https://api.resend.com/emails" (mkListOptions None None) "key" 0
           None script run.1 run.2).
  apply surjective_pairing.
Defined.

Example empty_page_stops_the_walk :
  let script := [page [item_of_id "a"] true; page [] true;
                 page [item_of_id "b"] false] in
  let run := requestList scripted "https://api.resend.com/emails"
               (mkListOptions None None) "key" 0 true None (init script) in
  run.1 = Ok (page [item_of_id "a"] false)
  ∧ length (calls run.2) = 2%nat
  ∧ world run.2 = [page [item_of_id "b"] false].
Proof. vm_compute. done. Qed.

(** *** The direction of the walk *)

Lemma next_qs_before_mode qs id :
  is_Some (next_qs (Some Before) qs id !! "before")
  ∧ next_qs (Some Before) qs id !! "after" = None.
Proof. cbn. by simplify_map_eq. Qed.

Lemma next_qs_after_mode mode qs id :
  mode ≠ Some Before →
  is_Some (next_qs mode qs id !! "after")
  ∧ next_qs mode qs id !! "before" = None.
Proof. destruct mode as [[]|]; try done; intros _; cbn; by simplify_map_eq. Qed.

(** C4: in a full aggregation the direction is that of the caller's
    cursor for the whole walk.  With [before] supplied every request carries
    [before] and none carries [after]; otherwise no request carries [before]
    and every request after the first carries [after], as does the first
    when [after] was supplied.  No request carries both, and each request
    after the first has the query of its predecessor with the active cursor
    set to the [id] of the last item of the page just fetched and the other
    cursor deleted. *)
Theorem requestList_all_direction_fixed {World}
    (transport : request → World → reply * World)
    (url : string) (lo : ListOptions) (apiKey : string) (itemIndex : Z)
    (limit : option Z) (w : World) o st' :
  requestList transport url lo apiKey itemIndex true limit (init w) = (o, st') →
  (set_cursor (before lo) = true →
   Forall (λ qs, is_Some (qs !! "before") ∧ qs !! "after" = None)
     (queries_sent (calls st')))
  ∧ (set_cursor (before lo) = false →
     Forall (λ qs, qs !! "before" = None) (queries_sent (calls st'))
     ∧ Forall (λ qs, is_Some (qs !! "after")) (tail (queries_sent (calls st')))
     ∧ (set_cursor (after lo) = true →
        Forall (λ qs, is_Some (qs !! "after")) (queries_sent (calls st'))))
  ∧ Forall (λ qs, ¬ (is_Some (qs !! "after") ∧ is_Some (qs !! "before")))
      (queries_sent (calls st'))
  ∧ (∀ i rq r rq' r',
       calls st' !! i = Some (rq, r) →
       calls st' !! S i = Some (rq', r') →
       ∃ resp, r = Resolved resp
         ∧ req_qs rq'
           = if set_cursor (before lo)
             then delete "after" (<["before" := last_id resp]> (req_qs rq))
             else delete "before" (<["after" := last_id resp]> (req_qs rq))).
Proof.
  intros Hrun. destruct (both_cursors lo) eqn:Hboth.
  { unfold requestList in Hrun. rewrite requestList_fuel_both in Hrun by done.
    injection Hrun as _ <-. cbn. split_and!; by repeat constructor. }
  apply requestList_all_run in Hrun as (cs & ow & Hw & Hcalls & _); [|done..].
  cbn in Hcalls. subst cs. unfold queries_sent.
  assert (set_cursor (before lo) = true →
          Forall (λ c, is_Some (req_qs c.1 !! "before") ∧ req_qs c.1 !! "after" = None)
            (calls st')) as Hbefore.
  { intros Hb.
    apply (walks_requests _ _ _
             (λ qs, is_Some (qs !! "before") ∧ qs !! "after" = None)
             (Some Before) _ _ _ _ _ Hw).
    - cbn. unfold initial_mode. by rewrite Hb.
    - intros qs id _. apply next_qs_before_mode.
    - cbn. rewrite initial_qs_before, initial_qs_after, Hb.
      unfold both_cursors in Hboth. rewrite Hb, andb_true_r in Hboth.
      by rewrite Hboth. }
  assert (set_cursor (before lo) = false →
          Forall (λ c, req_qs c.1 !! "before" = None) (calls st')) as Hnobefore.
  { intros Hb.
    apply (walks_requests _ _ _ (λ qs, qs !! "before" = None) None _ _ _ _ _ Hw).
    - cbn. unfold initial_mode. by rewrite Hb.
    - intros qs id _. by apply next_qs_after_mode.
    - cbn. by rewrite initial_qs_before, Hb. }
  split_and!.
  - intros Hb. rewrite Forall_map. by apply Hbefore.
  - intros Hb. split_and!.
    + rewrite Forall_map. by apply Hnobefore.
    + inversion Hw as [| | | |v0 w0 resp w1 cs o0 w2 Hm Ht Hn Hc Hw' E1 E2];
        subst; cbn [map tail]; try by constructor.
      rewrite Forall_map.
      apply (walks_requests _ _ _ (λ qs, is_Some (qs !! "after")) None
               _ _ _ _ _ Hw').
      * cbn. unfold initial_mode. by rewrite Hb.
      * intros qs id _. by apply next_qs_after_mode.
      * cbn. unfold initial_mode. rewrite Hb. by apply next_qs_after_mode.
    + intros Ha. rewrite Forall_map.
      apply (walks_requests _ _ _ (λ qs, is_Some (qs !! "after")) None
               _ _ _ _ _ Hw).
      * cbn. unfold initial_mode. by rewrite Hb.
      * intros qs id _. by apply next_qs_after_mode.
      * cbn. by rewrite initial_qs_after, Ha.
  - rewrite Forall_map. destruct (set_cursor (before lo)) eqn:Hb.
    + eapply Forall_impl; [by apply Hbefore|].
      intros c [_ Hnone] [[x Hsome] _]. congruence.
    + eapply Forall_impl; [by apply Hnobefore|].
      intros c Hnone [_ [x Hsome]]. congruence.
  - intros i rq r rq' r' Hi HSi.
    destruct (walks_chain _ _ _ (initial_mode lo) _ _ _ _ _ Hw eq_refl
                _ _ _ _ _ Hi HSi) as (resp & -> & ->).
    exists resp. split; [done|]. cbn [req_qs page_request].
    unfold initial_mode. by destruct (set_cursor (before lo)).
Qed.

Lemma requestList_all_direction_fixed_witness :
  let script := [page [item_of_id "m"; item_of_id "n"] true;
                 page [item_of_id "o"] true; page [item_of_id "p"] false] in
  let lo := mkListOptions None (Some "z") in
  let run := requestList scripted "https://api.resend.com/emails" lo "key" 0
               true None (init script) in
  (set_cursor (before lo) = true →
   Forall (λ qs, is_Some (qs !! "before") ∧ qs !! "after" = None)
     (queries_sent (calls run.2)))
  ∧ (set_cursor (before lo) = false →
     Forall (λ qs, qs !! "before" = None) (queries_sent (calls run.2))
     ∧ Forall (λ qs, is_Some (qs !! "after")) (tail (queries_sent (calls run.2)))
     ∧ (set_cursor (after lo) = true →
        Forall (λ qs, is_Some (qs !! "after")) (queries_sent (calls run.2))))
  ∧ Forall (λ qs, ¬ (is_Some (qs !! "after") ∧ is_Some (qs !! "before")))
      (queries_sent (calls run.2))
  ∧ (∀ i rq r rq' r',
       calls run.2 !! i = Some (rq, r) →
       calls run.2 !! S i = Some (rq', r') →
       ∃ resp, r = Resolved resp
         ∧ req_qs rq'
           = if set_cursor (before lo)
             then delete "after" (<["before" := last_id resp]> (req_qs rq))
             else delete "before" (<["after" := last_id resp]> (req_qs rq))).
Proof.
  intros script lo run.
  apply (requestList_all_direction_fixed scripted
           "https://api.resend.com/emails" lo "key" 0 None script run.1 run.2).
  apply surjective_pairing.
Defined.

Example backward_walk_queries :
  let script := [page [item_of_id "m"; item_of_id "n"] true;
                 page [item_of_id "o"] true; page [item_of_id "p"] false] in
  let run := requestList scripted "https://api.resend.com/emails"
               (mkListOptions None (Some "z")) "key" 0 true None (init script) in
  map (λ qs, (qs !! "before", qs !! "after")) (queries_sent (calls run.2))
  = [(Some (VStr "z"), None); (Some (VStr "n"), None); (Some (VStr "o"), None)].
Proof. vm_compute. reflexivity. Qed.

(** *** Bounds and termination *)





Lemma paginatedLoadOptions_run {World}
    (transport : request → World → reply * World) endpoint apiKey st o st' :
  paginatedLoadOptions transport endpoint apiKey st = (o, st') →
  o ≠ Diverge
  ∧ ∃ cs, calls st' = calls st ++ cs
      ∧ (length cs ≤ loaderMaxPages)%nat
      ∧ ∀ out, o = Ok out → out = project_items (received cs).
Proof.
  unfold paginatedLoadOptions, paginatedLoadOptions_fuel, bind.
  destruct (load_loop _ _ _ _ _ _) as [ov st1] eqn:Hloop.
  apply load_loop_run in Hloop as (Hnd & cs & Hcalls & Hlen & Hdata);
    [|cbn [l_pageCount]; unfold loaderMaxPages; lia..].
  cbn [l_pageCount] in Hlen.
  destruct ov as [v|e|]; intros Hrun; run_done Hrun; try done.
  - split; [done|]. exists cs. split_and!; [done|lia|].
    intros out [= <-]. by rewrite (Hdata v eq_refl).
  - split; [done|]. exists cs. split_and!; [done|lia|done].
Qed.




Example loader_stops_after_ten_calls :
  length (calls (paginatedLoadOptions (constantly (page [item_of_id "x"] true))
                   "/templates" "key" (init tt)).2) = 10%nat.
Proof. vm_compute. reflexivity. Qed.

(** *** The dropdown projection *)

(** What [project_item] gives for one item: the value is the [id]; the name
    is the [id] when the item has no [name], and for a [name] and an [id]
    that are strings it is the name, a space and the id in parentheses. *)
Lemma project_item_Some item option :
  project_item item = Some option →
  truthy (opt_prop item "id") = true
  ∧ opt_value option = opt_prop item "id"
  ∧ (truthy (opt_prop item "name") = false →
     opt_name option = opt_prop item "id")
  ∧ (∀ name ident : string,
       opt_prop item "name" = VStr name → name ≠ "" →
       opt_prop item "id" = VStr ident →
       opt_name option = VStr (name +:+ " (" +:+ ident +:+ ")")).
Proof.
  unfold project_item.
  destruct (truthy (opt_prop item "id")) eqn:Hid; cbn [negb]; [|done].
  intros [= <-]. cbn [opt_value opt_name]. split_and!; try done.
  - by intros ->.
  - intros name ident Hname Hne Hident. rewrite Hname, Hident.
    cbn [truthy toString]. by rewrite (proj2 (String.eqb_neq _ _) Hne).
Qed.

Lemma project_item_None item :
  project_item item = None → truthy (opt_prop item "id") = false.
Proof.
  unfold project_item. by destruct (truthy (opt_prop item "id")).
Qed.

(** The projection of a list of items, item by item. *)
Lemma project_items_Forall2 (R : jsval → INodePropertyOptions → Prop) items :
  (∀ item option, project_item item = Some option → R item option) →
  Forall2 R (filter (λ item, truthy (opt_prop item "id") = true) items)
    (project_items items).
Proof.
  intros HR. induction items as [|item items IH]; [constructor|].
  rewrite filter_cons. unfold project_items in *. cbn [omap list_omap].
  destruct (project_item item) as [option|] eqn:Hitem.
  - destruct (project_item_Some _ _ Hitem) as (Hid & _).
    rewrite decide_True by done. constructor; [by apply HR|done].
  - apply project_item_None in Hitem.
    rewrite decide_False by congruence. done.
Qed.

(** C9: the list the dropdown loader returns holds one pair for every item
    it received that has an [id], page after page and item after item, in
    the order received; an item without an [id] gives no pair.  The value
    of the pair is the item's [id].  Its name is the [id] when the item has
    no [name]; when it has one, and name and id are strings, it is the
    item's name, a space and the id in parentheses. *)
Theorem paginatedLoadOptions_projection {World}
    (transport : request → World → reply * World)
    (endpoint apiKey : string) (w : World) out st' :
  paginatedLoadOptions transport endpoint apiKey (init w) = (Ok out, st') →
  Forall2
    (λ item option,
       opt_value option = opt_prop item "id"
       ∧ (truthy (opt_prop item "name") = false →
          opt_name option = opt_prop item "id")
       ∧ (∀ name ident : string,
            opt_prop item "name" = VStr name → name ≠ "" →
            opt_prop item "id" = VStr ident →
            opt_name option = VStr (name +:+ " (" +:+ ident +:+ ")")))
    (filter (λ item, truthy (opt_prop item "id") = true) (received (calls st')))
    out.
Proof.
  intros Hrun.
  apply paginatedLoadOptions_run in Hrun as (_ & cs & Hcalls & _ & Hout).
  cbn in Hcalls. subst cs. rewrite (Hout out eq_refl).
  apply project_items_Forall2. intros item option Hitem.
  by destruct (project_item_Some _ _ Hitem) as (_ & ? & ? & ?).
Qed.

Lemma paginatedLoadOptions_projection_witness :
  let items := [VObj [("id", VStr "tpl_1"); ("name", VStr "Welcome")];
                VObj [("name", VStr "Orphan")];
                VObj [("id", VStr "tpl_2")]] in
  let script := [page items true; page [item_of_id "tpl_3"] false] in
  let run := paginatedLoadOptions scripted "/templates" "key" (init script) in
  let out := [mkOption (VStr "Welcome (tpl_1)") (VStr "tpl_1");
              mkOption (VStr "tpl_2") (VStr "tpl_2");
              mkOption (VStr "tpl_3") (VStr "tpl_3")] in
  Forall2
    (λ item option,
       opt_value option = opt_prop item "id"
       ∧ (truthy (opt_prop item "name") = false →
          opt_name option = opt_prop item "id")
       ∧ (∀ name ident : string,
            opt_prop item "name" = VStr name → name ≠ "" →
            opt_prop item "id" = VStr ident →
            opt_name option = VStr (name +:+ " (" +:+ ident +:+ ")")))
    (filter (λ item, truthy (opt_prop item "id") = true)
       (received (calls run.2)))
    out.
Proof.
  intros items script run out.
  apply (paginatedLoadOptions_projection scripted "/templates" "key"
           script out run.2).
  apply run_with_outcome. vm_compute. reflexivity.
Defined.

Example dropdown_projection_examples :
  project_item (VObj [("id", VStr "tpl_1"); ("name", VStr "Welcome")])
  = Some (mkOption (VStr "Welcome (tpl_1)") (VStr "tpl_1"))
  ∧ project_item (VObj [("id", VStr "tpl_2")])
    = Some (mkOption (VStr "tpl_2") (VStr "tpl_2"))
  ∧ project_item (VObj [("name", VStr "Orphan")]) = None.
Proof. vm_compute. done. Qed.

(** * Further properties *)

(** ** [requestList]: failures, verbatim pages and the requests sent *)

(** A call that is rejected, or answered by [null], is the last call of the
    walk and decides its outcome. *)
Lemma walks_abort {World} (transport : request → World → reply * World)
    url apiKey v w cs o w' :
  walks transport url apiKey v w cs o w' →
  ∀ i rq r, cs !! i = Some (rq, r) →
    match r with
    | Rejected e => o = Throw e ∧ length cs = S i
    | Resolved resp =>
        nullish resp = true → o = Throw TypeError ∧ length cs = S i
    end.
Proof.
  induction 1 as [| | | |v w resp w' cs o w'' Hm Ht Hn Hc H IH];
    intros i rq r Hi.
  - done.
  - destruct i; [|done]. by simplify_eq/=.
  - destruct i; [|done]. by simplify_eq/=.
  - destruct i; [|done]. simplify_eq/=. congruence.
  - destruct i as [|i].
    + simplify_eq/=. congruence.
    + pose proof (IH i rq r Hi) as Hrest. cbn [length].
      destruct r as [resp'|e'].
      * intros Hf. by destruct (Hrest Hf) as [-> ->].
      * by destruct Hrest as [-> ->].
Qed.

Lemma walks_envelope {World} (transport : request → World → reply * World)
    url apiKey v w cs o w' :
  walks transport url apiKey v w cs o w' →
  Forall (λ c, ∃ qs, c.1 = page_request url apiKey qs) cs.
Proof. induction 1; repeat constructor; eauto. Qed.

(** X1: when the transport rejects a call of [requestList] with [e], in
    either mode, that call is the last one and [requestList] throws [e]:
    no partial list is returned. *)
Theorem requestList_rejection_propagates {World}
    (transport : request → World → reply * World)
    (url : string) (lo : ListOptions) (apiKey : string) (itemIndex : Z)
    (returnAll : bool) (limit : option Z) (w : World) o st' i rq e :
  requestList transport url lo apiKey itemIndex returnAll limit (init w)
  = (o, st') →
  calls st' !! i = Some (rq, Rejected e) →
  o = Throw e ∧ length (calls st') = S i.
Proof.
  intros Hrun Hi. destruct (both_cursors lo) eqn:Hboth.
  { unfold requestList in Hrun. rewrite requestList_fuel_both in Hrun by done.
    by simplify_eq. }
  destruct returnAll.
  - apply requestList_all_run in Hrun as (cs & ow & Hw & Hcalls & ->); [|done..].
    cbn in Hcalls. subst cs.
    destruct (walks_abort _ _ _ _ _ _ _ _ Hw _ _ _ Hi) as [-> Hlen]. done.
  - unfold requestList in Hrun. rewrite requestList_single_run in Hrun by done.
    cbv zeta in Hrun. destruct (transport _ _) as [[resp|e'] w'];
      simplify_eq/=; destruct i; by simplify_eq/=.
Qed.

Lemma requestList_rejection_propagates_witness :
  let script := [page [item_of_id "a"] true] in
  let run := requestList scripted "https://api.resend.com/emails"
               (mkListOptions None None) "key" 0 true None (init script) in
  run.1 = Throw (TransportError "script exhausted")
  ∧ length (calls run.2) = 2%nat.
Proof.
  intros script run.
  eapply (requestList_rejection_propagates scripted _ _ _ _ _ _ script
            run.1 run.2 1).
  - apply surjective_pairing.
  - vm_compute. reflexivity.
Defined.

(** X2: when a call of a full aggregation is answered by [null],
    [requestList] throws a [TypeError] and issues no further call. *)
Theorem requestList_all_null_response {World}
    (transport : request → World → reply * World)
    (url : string) (lo : ListOptions) (apiKey : string) (itemIndex : Z)
    (limit : option Z) (w : World) o st' i rq resp :
  requestList transport url lo apiKey itemIndex true limit (init w) = (o, st') →
  calls st' !! i = Some (rq, Resolved resp) →
  nullish resp = true →
  o = Throw TypeError ∧ length (calls st') = S i.
Proof.
  intros Hrun Hi Hnull. destruct (both_cursors lo) eqn:Hboth.
  { unfold requestList in Hrun. rewrite requestList_fuel_both in Hrun by done.
    by simplify_eq. }
  apply requestList_all_run in Hrun as (cs & ow & Hw & Hcalls & ->); [|done..].
  cbn in Hcalls. subst cs.
  destruct (walks_abort _ _ _ _ _ _ _ _ Hw _ _ _ Hi Hnull) as [-> Hlen]. done.
Qed.

Lemma requestList_all_null_response_witness :
  let script := [page [item_of_id "a"] true; VNull; page [] false] in
  let run := requestList scripted "https://api.resend.com/emails"
               (mkListOptions None None) "key" 0 true None (init script) in
  run.1 = Throw TypeError ∧ length (calls run.2) = 2%nat.
Proof.
  intros script run.
  eapply (requestList_all_null_response scripted _ _ _ _ _ script
            run.1 run.2 1 _ VNull).
  - apply surjective_pairing.
  - vm_compute. reflexivity.
  - reflexivity.
Defined.

(** X3: in single-page mode the response is returned as the upstream sent
    it, with no cut, when no [limit] is given, when the limit is not
    positive (then even [null] is returned), and when the response is not
    [null] and its [data] is not an array of more than [limit] items.  A
    [null] response under a positive limit makes it throw a [TypeError]. *)
Theorem requestList_single_page_verbatim {World}
    (transport : request → World → reply * World)
    (url : string) (lo : ListOptions) (apiKey : string) (itemIndex : Z)
    (limit : option Z) (st : state World) (resp : jsval) (w' : World) :
  both_cursors lo = false →
  transport (page_request url apiKey (initial_qs lo (default 50 limit))) (world st)
  = (Resolved resp, w') →
  let st' :=
    mkState w'
      (calls st ++ [(page_request url apiKey (initial_qs lo (default 50 limit)),
                     Resolved resp)]) in
  (default 0 limit ≤ 0 →
   requestList transport url lo apiKey itemIndex false limit st = (Ok resp, st'))
  ∧ (nullish resp = false →
     (∀ items, opt_prop resp "data" = VArr items →
               Z.of_nat (length items) ≤ default 0 limit) →
     requestList transport url lo apiKey itemIndex false limit st = (Ok resp, st'))
  ∧ (0 < default 0 limit → nullish resp = true →
     requestList transport url lo apiKey itemIndex false limit st
     = (Throw TypeError, st')).
Proof.
  intros Hboth Ht st'. unfold requestList.
  rewrite requestList_single_run by done. cbv zeta. rewrite Ht.
  unfold clip_page. split_and!.
  - intros Hle. destruct limit as [l|]; [|done]. cbn in Hle.
    by rewrite (proj2 (Z.ltb_ge 0 l)).
  - intros Hnn Hlen. destruct limit as [l|]; [|done]. cbn in Hlen.
    destruct (0 <? l); [|done]. rewrite get_prop_opt_prop by done. cbn [obind].
    destruct (opt_prop resp "data") as [| | | | |items|] eqn:Hd; try done.
    by rewrite (proj2 (Z.ltb_ge l _)) by by apply Hlen.
  - intros Hpos Hnull. destruct limit as [l|]; [|done]. cbn in Hpos.
    rewrite (proj2 (Z.ltb_lt 0 l)) by done. by rewrite get_prop_nullish.
Qed.

Lemma requestList_single_page_verbatim_witness :
  let url := "https://api.resend.com/emails" in
  let lo := mkListOptions (Some "c1") None in
  let resp := page [item_of_id "a"; item_of_id "b"] true in
  let st' :=
    mkState [] ([] ++ [(page_request url "key" (initial_qs lo 2), Resolved resp)]) in
  (2 ≤ 0 →
   requestList scripted url lo "key" 0 false (Some 2) (init [resp]) = (Ok resp, st'))
  ∧ (nullish resp = false →
     (∀ items, opt_prop resp "data" = VArr items → Z.of_nat (length items) ≤ 2) →
     requestList scripted url lo "key" 0 false (Some 2) (init [resp]) = (Ok resp, st'))
  ∧ (0 < 2 → nullish resp = true →
     requestList scripted url lo "key" 0 false (Some 2) (init [resp])
     = (Throw TypeError, st')).
Proof.
  intros url lo resp st'.
  apply (requestList_single_page_verbatim scripted url lo "key" 0 (Some 2)
           (init [resp]) resp []); reflexivity.
Defined.

(** X4: with cursors that pass the check, [requestList] issues at least one
    call and at most 100, exactly one in single-page mode, and every call is
    a [GET] of the given [url] with the bearer header of the given key and
    [json] set. *)
Theorem requestList_requests_envelope {World}
    (transport : request → World → reply * World)
    (url : string) (lo : ListOptions) (apiKey : string) (itemIndex : Z)
    (returnAll : bool) (limit : option Z) (w : World) o st' :
  both_cursors lo = false →
  requestList transport url lo apiKey itemIndex returnAll limit (init w)
  = (o, st') →
  (1 ≤ length (calls st') ≤ 100)%nat
  ∧ (returnAll = false → length (calls st') = 1%nat)
  ∧ Forall (λ c, req_url c.1 = url
                 ∧ req_method c.1 = "GET"
                 ∧ req_authorization c.1 = "Bearer " +:+ apiKey
                 ∧ req_json c.1 = true)
      (calls st').
Proof.
  intros Hboth Hrun. destruct returnAll.
  - apply requestList_all_run in Hrun as (cs & ow & Hw & Hcalls & ->); [|done..].
    cbn in Hcalls. subst cs. split_and!.
    + apply walks_more_cons in Hw as Hne; [|done].
      destruct (calls st'); [done|]. cbn. lia.
    + apply walks_length in Hw; [|cbn; unfold maxPages; lia].
      cbn [initial_walk w_pageCount] in Hw. unfold maxPages in Hw. lia.
    + done.
    + eapply Forall_impl; [by eapply walks_envelope|].
      by intros c [qs ->].
  - unfold requestList in Hrun. rewrite requestList_single_run in Hrun by done.
    cbv zeta in Hrun. destruct (transport _ _) as [[resp|e] w1]; simplify_eq/=.
    all: split_and!; [lia|lia|done|by repeat constructor].
Qed.

Lemma requestList_requests_envelope_witness :
  let run := requestList (constantly (page [] false))
               "https://api.resend.com/emails" (mkListOptions None None)
               "key" 0 true None (init tt) in
  (1 ≤ length (calls run.2) ≤ 100)%nat
  ∧ (true = false → length (calls run.2) = 1%nat)
  ∧ Forall (λ c, req_url c.1 = "https://api.resend.com/emails"
                 ∧ req_method c.1 = "GET"
                 ∧ req_authorization c.1 = "Bearer " +:+ "key"
                 ∧ req_json c.1 = true)
      (calls run.2).
Proof.
  intros run.
  apply (requestList_requests_envelope (constantly (page [] false))
           "https://api.resend.com/emails" (mkListOptions None None) "key" 0
           true None tt run.1 run.2 eq_refl).
  apply surjective_pairing.
Defined.

(** ** The dropdown loader: requests, continuation and failures *)

Lemma load_next_continue v resp v' :
  load_next v resp = Ok (Continue, v') →
  page_items resp ≠ []
  ∧ truthy (last_id resp) = true
  ∧ (S (l_pageCount v) < loaderMaxPages)%nat
  ∧ l_after v' = last_id resp
  ∧ l_hasMore v' = page_has_more resp
  ∧ l_pageCount v' = S (l_pageCount v).
Proof.
  unfold load_next, last_id, page_items, page_has_more.
  destruct (opt_prop resp "data") as [| | | | |[|x l]|] eqn:Hd;
    cbn [coalesce nullish obind]; try discriminate.
  destruct (List.last (x :: l) VUndef) as [| | | | | |fs] eqn:Hlast;
    cbn [get_prop obind opt_prop truthy negb orb]; try discriminate.
  destruct (truthy (default VUndef (assoc_get "id" fs))) eqn:Hid;
    cbn [negb orb]; [|discriminate].
  destruct (loaderMaxPages <=? S (l_pageCount v))%nat eqn:E; [discriminate|].
  intros [= <-]. apply Nat.leb_gt in E. by split_and!.
Qed.


Lemma load_next_throw v resp :
  (load_faults resp = true → load_next v resp = Throw TypeError)
  ∧ (∀ e, load_next v resp = Throw e → load_faults resp = true ∧ e = TypeError).
Proof.
  unfold load_next, load_faults.
  destruct (coalesce _ _) as [| | | | |[|x l]|]; cbn [obind];
    try (split; [done|]; by intros e [= <-]).
  destruct (List.last (x :: l) VUndef); cbn [get_prop obind nullish];
    (split; [done|]); try (by intros e [= <-]); intros e; by destruct (_ || _).
Qed.

Section LoaderFacts.

Context {World : Type}.
Variable transport : request → World → reply * World.
Variables endpoint apiKey : string.

Local Abbreviation load_request := (load_request endpoint apiKey).
Local Abbreviation loads := (loads transport endpoint apiKey).

Lemma load_loop_loads fuel v st o st' :
  (l_pageCount v < loaderMaxPages)%nat →
  (loaderMaxPages - l_pageCount v ≤ fuel)%nat →
  load_loop transport fuel endpoint apiKey v st = (o, st') →
  ∃ cs, loads v (world st) cs o (world st') ∧ calls st' = calls st ++ cs.
Proof.
  revert v st. induction fuel as [|fuel IH]; intros v st Hpc Hfuel Hrun; [lia|].
  cbn [load_loop] in Hrun. destruct (l_hasMore v) eqn:Hmore.
  2:{ run_done Hrun. exists []. rewrite app_nil_r. split; [by constructor|done]. }
  unfold bind in Hrun. rewrite load_body_run in Hrun.
  destruct (transport _ _) as [[resp|e] w] eqn:Ht; cbn zeta in Hrun.
  2:{ run_done Hrun. eexists. split; [by apply loads_reject|done]. }
  destruct (load_next v resp) as [[c v1]|e|] eqn:Hnext.
  3:{ by apply load_next_not_diverge in Hnext. }
  2:{ run_done Hrun. eexists. split; [by eapply loads_fault|done]. }
  destruct c; cbv beta iota in Hrun.
  - run_done Hrun. eexists. split; [by eapply loads_break|done].
  - apply load_next_continue in Hnext as Hc.
    destruct Hc as (_ & _ & Hlt & _ & _ & Hcount).
    apply IH in Hrun as (cs & Hl & Hcalls); [|lia..].
    exists ((load_request (l_after v), Resolved resp) :: cs). split.
    + eapply loads_continue; eauto.
    + rewrite Hcalls. cbn [calls]. by rewrite <- app_assoc.
Qed.

Lemma loads_nil v w o w' : loads v w [] o w' → l_hasMore v = false.
Proof. by inversion 1. Qed.

Lemma loads_head v w c cs o w' :
  loads v w (c :: cs) o w' → c.1 = load_request (l_after v).
Proof. by inversion 1. Qed.

Lemma loads_envelope v w cs o w' :
  loads v w cs o w' → Forall (λ c, ∃ a, c.1 = load_request a) cs.
Proof. induction 1; repeat constructor; eauto. Qed.

(** Each request after the first carries, as [after], the [id] of the last
    item of the page the call before it fetched. *)
Lemma loads_chain v w cs o w' :
  loads v w cs o w' →
  ∀ i rq r rq' r',
    cs !! i = Some (rq, r) → cs !! S i = Some (rq', r') →
    ∃ resp, r = Resolved resp
      ∧ truthy (last_id resp) = true
      ∧ rq' = load_request (last_id resp).
Proof.
  induction 1 as [| | | |v w resp v' w' cs o w'' Hm Ht Hn H IH];
    intros i rq r rq' r' Hi HSi; try done.
  destruct i as [|i]; [|by eapply IH].
  simplify_eq/=. destruct cs as [|c cs]; [done|]. simplify_eq/=.
  apply loads_head in H. cbn in H. subst rq'.
  apply load_next_continue in Hn as (_ & Hid & _ & -> & _).
  eauto.
Qed.



(** A call that is rejected, or answered by a response that makes the pass
    throw, is the last call and decides the outcome. *)
Lemma loads_abort v w cs o w' :
  loads v w cs o w' →
  ∀ i rq r, cs !! i = Some (rq, r) →
    match r with
    | Rejected e => o = Throw e ∧ length cs = S i
    | Resolved resp =>
        load_faults resp = true → o = Throw TypeError ∧ length cs = S i
    end.
Proof.
  induction 1 as [| |v w resp e w' Hm Ht Hn|v w resp v' w' Hm Ht Hn
                 |v w resp v' w' cs o w'' Hm Ht Hn H IH];
    intros i rq r Hi.
  - done.
  - destruct i; [|done]. by simplify_eq/=.
  - destruct i; [|done]. simplify_eq/=.
    by apply (proj2 (load_next_throw v resp)) in Hn as [_ ->].
  - destruct i; [|done]. simplify_eq/=. intros Hf.
    apply (proj1 (load_next_throw v resp)) in Hf. congruence.
  - destruct i as [|i].
    + simplify_eq/=. intros Hf.
      apply (proj1 (load_next_throw v resp)) in Hf. congruence.
    + pose proof (IH i rq r Hi) as Hrest. cbn [length].
      destruct r as [resp'|e'].
      * intros Hf. by destruct (Hrest Hf) as [-> ->].
      * by destruct Hrest as [-> ->].
Qed.

Lemma paginatedLoadOptions_loads st o st' :
  paginatedLoadOptions transport endpoint apiKey st = (o, st') →
  ∃ cs ov,
    loads (mkLoad [] VUndef true 0) (world st) cs ov (world st')
    ∧ calls st' = calls st ++ cs
    ∧ o = obind ov (λ v, Ok (l_returnData v)).
Proof.
  unfold paginatedLoadOptions, paginatedLoadOptions_fuel, bind.
  destruct (load_loop _ _ _ _ _ _) as [ov st1] eqn:Hloop.
  apply load_loop_loads in Hloop as (cs & Hl & Hcalls);
    [|cbn [l_pageCount]; unfold loaderMaxPages; lia..].
  intros Hrun. exists cs, ov. destruct ov as [v|e|]; run_done Hrun; eauto.
Qed.

End LoaderFacts.

Lemma load_qs_limit a : load_qs a !! "limit" = Some (VNum 100).
Proof. unfold load_qs. destruct (truthy a); by simplify_map_eq. Qed.

Lemma load_qs_before a : load_qs a !! "before" = None.
Proof. unfold load_qs. destruct (truthy a); by simplify_map_eq. Qed.

Lemma load_qs_after a :
  load_qs a !! "after" = if truthy a then Some a else None.
Proof. unfold load_qs. destruct (truthy a); by simplify_map_eq. Qed.


(** X5: the dropdown loader issues between 1 and 10 calls, each a [GET] of
    the endpoint under the API base with the bearer header, [json] set,
    [limit = 100] and no [before].  The first request has no [after]; each
    later one carries, as [after], the [id] of the last item of the page
    fetched by the call before it. *)
Theorem paginatedLoadOptions_requests {World}
    (transport : request → World → reply * World)
    (endpoint apiKey : string) (w : World) o st' :
  paginatedLoadOptions transport endpoint apiKey (init w) = (o, st') →
  (1 ≤ length (calls st') ≤ 10)%nat
  ∧ Forall (λ c, req_url c.1 = "https://api.resend.com" +:+ endpoint
                 ∧ req_method c.1 = "GET"
                 ∧ req_authorization c.1 = "Bearer " +:+ apiKey
                 ∧ req_json c.1 = true
                 ∧ req_qs c.1 !! "limit" = Some (VNum 100)
                 ∧ req_qs c.1 !! "before" = None)
      (calls st')
  ∧ (∀ c, calls st' !! 0%nat = Some c → req_qs c.1 !! "after" = None)
  ∧ (∀ i rq r rq' r',
       calls st' !! i = Some (rq, r) →
       calls st' !! S i = Some (rq', r') →
       ∃ resp, r = Resolved resp
         ∧ req_qs rq' !! "after" = Some (last_id resp)).
Proof.
  intros Hrun.
  apply paginatedLoadOptions_run in Hrun as Hlen.
  destruct Hlen as (_ & cs' & Hcs' & Hlen & _).
  apply paginatedLoadOptions_loads in Hrun as (cs & ov & Hl & Hcalls & _).
  cbn in Hcalls, Hcs'. subst cs cs'. split_and!.
  - destruct (calls st'); [by apply loads_nil in Hl|]. cbn. lia.
  - unfold loaderMaxPages in Hlen. lia.
  - eapply Forall_impl; [by eapply loads_envelope|].
    intros c [a ->]. unfold load_request.
    cbn [req_url req_method req_authorization req_json req_qs].
    by rewrite load_qs_limit, load_qs_before.
  - intros c Hc. destruct (calls st') as [|c' cs]; simplify_eq/=.
    apply loads_head in Hl. rewrite Hl. unfold load_request.
    cbn [req_qs l_after]. by rewrite load_qs_after.
  - intros i rq r rq' r' Hi HSi.
    destruct (loads_chain _ _ _ _ _ _ _ _ Hl _ _ _ _ _ Hi HSi)
      as (resp & -> & Hid & ->).
    exists resp. split; [done|]. unfold load_request. cbn [req_qs].
    by rewrite load_qs_after, Hid.
Qed.

Lemma paginatedLoadOptions_requests_witness :
  let script := [page [item_of_id "t1"; item_of_id "t2"] true;
                 page [item_of_id "t3"] false] in
  let run := paginatedLoadOptions scripted "/templates" "key" (init script) in
  (1 ≤ length (calls run.2) ≤ 10)%nat
  ∧ Forall (λ c, req_url c.1 = "https://api.resend.com" +:+ "/templates"
                 ∧ req_method c.1 = "GET"
                 ∧ req_authorization c.1 = "Bearer " +:+ "key"
                 ∧ req_json c.1 = true
                 ∧ req_qs c.1 !! "limit" = Some (VNum 100)
                 ∧ req_qs c.1 !! "before" = None)
      (calls run.2)
  ∧ (∀ c, calls run.2 !! 0%nat = Some c → req_qs c.1 !! "after" = None)
  ∧ (∀ i rq r rq' r',
       calls run.2 !! i = Some (rq, r) →
       calls run.2 !! S i = Some (rq', r') →
       ∃ resp, r = Resolved resp
         ∧ req_qs rq' !! "after" = Some (last_id resp)).
Proof.
  intros script run.
  apply (paginatedLoadOptions_requests scripted "/templates" "key" script
           run.1 run.2).
  apply surjective_pairing.
Defined.



(** X7: when the transport rejects a call of the dropdown loader with [e],
    the loader throws [e]; when a response has a [data] that is neither
    absent, an array nor a string, or an array whose last item is [null],
    the loader throws a [TypeError].  In both cases that call is the last
    and the options collected so far are not returned. *)
Theorem paginatedLoadOptions_failures {World}
    (transport : request → World → reply * World)
    (endpoint apiKey : string) (w : World) o st' i rq r :
  paginatedLoadOptions transport endpoint apiKey (init w) = (o, st') →
  calls st' !! i = Some (rq, r) →
  match r with
  | Rejected e => o = Throw e ∧ length (calls st') = S i
  | Resolved resp =>
      (match opt_prop resp "data" with
       | VNum _ | VBool _ | VObj _ => True
       | VArr l => ∃ l', l = l' ++ [VNull]
       | _ => False
       end) →
      o = Throw TypeError ∧ length (calls st') = S i
  end.
Proof.
  intros Hrun Hi.
  apply paginatedLoadOptions_loads in Hrun as (cs & ov & Hl & Hcalls & ->).
  cbn in Hcalls. subst cs.
  pose proof (loads_abort _ _ _ _ _ _ _ _ Hl _ _ _ Hi) as Habort.
  destruct r as [resp|e].
  - intros Hbad.
    assert (load_faults resp = true) as Hf.
    { unfold load_faults.
      destruct (opt_prop resp "data") as [| | | | |l|]; try done.
      destruct Hbad as (l' & ->). cbn [coalesce nullish].
      destruct l' as [|y l']; [done|]. cbn [app].
      change (y :: l' ++ [VNull]) with ((y :: l') ++ [VNull]).
      by rewrite List.last_last. }
    by destruct (Habort Hf) as [-> ->].
  - by destruct Habort as [-> ->].
Qed.

Lemma paginatedLoadOptions_failures_witness :
  let script := [page [item_of_id "t1"] true; page [item_of_id "t2"; VNull] true] in
  let run := paginatedLoadOptions scripted "/templates" "key" (init script) in
  run.1 = Throw TypeError ∧ length (calls run.2) = 2%nat.
Proof.
  intros script run.
  refine (paginatedLoadOptions_failures scripted "/templates" "key" script
            run.1 run.2 1 _ (Resolved (page [item_of_id "t2"; VNull] true))
            (surjective_pairing run) _ _).
  - vm_compute. reflexivity.
  - by exists [item_of_id "t2"].
Defined.

(** X8: [getTemplates], [getSegments] and [getTopics] send every request
    to the templates, segments and topics collection of the API. *)
Theorem dropdown_loaders_endpoints {World}
    (transport : request → World → reply * World) (apiKey : string)
    (st : state World) :
  calls st = [] →
  Forall (λ c, req_url c.1 = "https://api.resend.com/templates")
    (calls (getTemplates transport apiKey st).2)
  ∧ Forall (λ c, req_url c.1 = "https://api.resend.com/segments")
      (calls (getSegments transport apiKey st).2)
  ∧ Forall (λ c, req_url c.1 = "https://api.resend.com/topics")
      (calls (getTopics transport apiKey st).2).
Proof.
  intros Hst. unfold getTemplates, getSegments, getTopics.
  split_and!.
  all: match goal with
       | |- context [paginatedLoadOptions ?t ?e ?k ?s] =>
           destruct (paginatedLoadOptions t e k s) as [o st'] eqn:Hrun
       end.
  all: apply paginatedLoadOptions_loads in Hrun as (cs & ov & Hl & Hcalls & _).
  all: cbn [snd]; rewrite Hcalls, Hst; cbn [app].
  all: eapply Forall_impl; [by eapply loads_envelope|].
  all: by intros c [a ->].
Qed.

Lemma dropdown_loaders_endpoints_witness :
  let st := init [page [item_of_id "t1"] false] in
  Forall (λ c, req_url c.1 = "https://api.resend.com/templates")
    (calls (getTemplates scripted "key" st).2)
  ∧ Forall (λ c, req_url c.1 = "https://api.resend.com/segments")
      (calls (getSegments scripted "key" st).2)
  ∧ Forall (λ c, req_url c.1 = "https://api.resend.com/topics")
      (calls (getTopics scripted "key" st).2).
Proof.
  intros st. exact (dropdown_loaders_endpoints scripted "key" st eq_refl).
Defined.

(** ** Strings *)

Lemma trimStart_head s c r : trimStart s = String c r → is_space c = false.
Proof.
  induction s as [|d s IH]; cbn; [done|].
  destruct (is_space d) eqn:E; [done|]. by intros [= <- <-].
Qed.

Lemma trimStart_fixed c r : is_space c = false → trimStart (String c r) = String c r.
Proof. cbn. by intros ->. Qed.

Lemma trimEnd_head c r :
  is_space c = false → ∃ r', trimEnd (String c r) = String c r'.
Proof. intros Hc. cbn. rewrite Hc. destruct (trimEnd r); eauto. Qed.

Lemma trimEnd_idemp s : trimEnd (trimEnd s) = trimEnd s.
Proof.
  induction s as [|c s IH]; [done|]. cbn.
  destruct (trimEnd s) as [|d r] eqn:E.
  - destruct (is_space c) eqn:Hc; [done|]. cbn. by rewrite Hc.
  - cbn [trimEnd] in *. by rewrite IH.
Qed.

Lemma trim_idemp s : trim (trim s) = trim s.
Proof.
  unfold trim. destruct (trimStart s) as [|c r] eqn:E; [done|].
  apply trimStart_head in E.
  destruct (trimEnd_head c r E) as (r' & Hr). rewrite Hr.
  by rewrite trimStart_fixed, <- Hr, trimEnd_idemp.
Qed.

Lemma prefix_single c d r :
  String.prefix (String c EmptyString) (String d r) = Ascii.eqb c d.
Proof.
  cbn. destruct (ascii_dec c d) as [->|Hne].
  - rewrite Ascii.eqb_refl. by destruct r.
  - symmetry. by apply Ascii.eqb_neq.
Qed.

Lemma includes_single_cons c d r :
  includes (String c EmptyString) (String d r)
  = Ascii.eqb c d || includes (String c EmptyString) r.
Proof. cbn [includes]. by rewrite prefix_single. Qed.

Lemma includes_single_nil c : includes (String c EmptyString) EmptyString = false.
Proof. done. Qed.

Lemma includes_single_trimStart c s :
  includes (String c EmptyString) s = false →
  includes (String c EmptyString) (trimStart s) = false.
Proof.
  induction s as [|d s IH]; [done|]. intros H. cbn [trimStart].
  destruct (is_space d); [|done]. apply IH.
  rewrite includes_single_cons in H. by apply orb_false_iff in H as [_ ?].
Qed.

Lemma includes_single_trimEnd c s :
  includes (String c EmptyString) s = false →
  includes (String c EmptyString) (trimEnd s) = false.
Proof.
  induction s as [|d s IH]; [done|]. intros H.
  rewrite includes_single_cons in H. apply orb_false_iff in H as [Hd Hs].
  specialize (IH Hs). cbn [trimEnd]. destruct (trimEnd s) as [|e r].
  - destruct (is_space d); [done|].
    by rewrite includes_single_cons, Hd.
  - by rewrite includes_single_cons, Hd, IH.
Qed.

Lemma includes_single_trim c s :
  includes (String c EmptyString) s = false →
  includes (String c EmptyString) (trim s) = false.
Proof.
  intros H. by apply includes_single_trimEnd, includes_single_trimStart.
Qed.

Lemma split_not_nil sep s : split sep s ≠ [].
Proof.
  destruct s as [|c s]; cbn; [done|].
  destruct (Ascii.eqb c sep); [done|]. by destruct (split sep s).
Qed.

(** No piece of a split holds the separator. *)
Lemma split_pieces sep s :
  Forall (λ piece, includes (String sep EmptyString) piece = false) (split sep s).
Proof.
  induction s as [|c s IH]; cbn [split]; [by repeat constructor|].
  destruct (Ascii.eqb c sep) eqn:E; [by constructor|].
  destruct (split sep s) as [|piece pieces].
  - repeat constructor. rewrite includes_single_cons, Ascii.eqb_sym, E. done.
  - inversion IH as [|? ? Hp Hps]; subst. constructor; [|done].
    by rewrite includes_single_cons, Ascii.eqb_sym, E.
Qed.

Lemma split_no_sep sep s :
  includes (String sep EmptyString) s = false → split sep s = [s].
Proof.
  induction s as [|c s IH]; [done|]. rewrite includes_single_cons.
  intros H. apply orb_false_iff in H as [Hc Hs]. cbn [split].
  rewrite Ascii.eqb_sym, Hc. by rewrite IH.
Qed.

Lemma split_app sep x rest :
  includes (String sep EmptyString) x = false →
  split sep (x +:+ String sep rest) = x :: split sep rest.
Proof.
  induction x as [|c x IH].
  - intros _. change (EmptyString +:+ String sep rest) with (String sep rest).
    cbn [split]. by rewrite Ascii.eqb_refl.
  - rewrite includes_single_cons. intros H.
    apply orb_false_iff in H as [Hc Hx].
    change (String c x +:+ String sep rest)
      with (String c (x +:+ String sep rest)).
    cbn [split]. rewrite Ascii.eqb_sym, Hc. by rewrite (IH Hx).
Qed.

(** Splitting undoes joining, for pieces without the separator. *)
Lemma split_concat sep pieces :
  Forall (λ piece, includes (String sep EmptyString) piece = false) pieces →
  split sep (String.concat (String sep EmptyString) pieces)
  = match pieces with [] => [EmptyString] | _ => pieces end.
Proof.
  induction 1 as [|x l Hx Hl IH]; [done|].
  destruct l as [|y l].
  - by apply split_no_sep.
  - change (String.concat (String sep EmptyString) (x :: y :: l))
      with (x +:+ String sep (String.concat (String sep EmptyString) (y :: l))).
    by rewrite split_app, IH.
Qed.

(** ** [normalizeEmailList] *)

Lemma normalize_clean_strings l :
  Forall clean_email l →
  filter (λ email, email ≠ "") (map (λ email, trim email) l) = l.
Proof.
  induction 1 as [|e l [Hne Ht] Hl IH]; [done|].
  cbn [map]. rewrite filter_cons, Ht. rewrite decide_True by done. by rewrite IH.
Qed.

Lemma normalizeEmailList_Forall_clean value :
  Forall clean_email (normalizeEmailList value).
Proof.
  destruct value as [| | | |s|l|]; cbn [normalizeEmailList]; try by constructor.
  - apply Forall_forall.
    intros e [He (x & -> & Hx)%list_elem_of_fmap]%list_elem_of_filter.
    split; [done|]. apply trim_idemp.
  - apply Forall_forall.
    intros e [He (x & -> & Hx)%list_elem_of_fmap]%list_elem_of_filter.
    split; [done|]. apply trim_idemp.
Qed.

(** X9: every address [normalizeEmailList] returns is non-empty and has no
    white space at either end; from a comma-separated string none holds a
    comma.  A value that is neither an array nor a string gives the empty
    list. *)
Theorem normalizeEmailList_clean (value : jsval) :
  Forall (λ email, email ≠ "" ∧ trim email = email) (normalizeEmailList value)
  ∧ (∀ s, value = VStr s →
          Forall (λ email, includes "," email = false) (normalizeEmailList value))
  ∧ (isArray value = false → (∀ s, value ≠ VStr s) →
     normalizeEmailList value = []).
Proof.
  split_and!.
  - apply normalizeEmailList_Forall_clean.
  - intros s ->. cbn [normalizeEmailList]. apply Forall_forall.
    intros e [He (x & -> & Hx)%list_elem_of_fmap]%list_elem_of_filter.
    apply includes_single_trim.
    pose proof (split_pieces comma s) as Hp. rewrite Forall_forall in Hp.
    by apply Hp.
  - intros Harr Hstr. destruct value; try done. by destruct (Hstr s).
Qed.

(** X10: an array of strings that are already non-empty and trimmed comes
    back as it is, in the same order and with its duplicates; so
    [normalizeEmailList] applied to its own result changes nothing. *)
Theorem normalizeEmailList_idempotent (value : jsval) (l : list string) :
  Forall (λ email, email ≠ "" ∧ trim email = email) l →
  normalizeEmailList (VArr (VStr <$> l)) = l
  ∧ normalizeEmailList (VArr (VStr <$> normalizeEmailList value))
    = normalizeEmailList value.
Proof.
  assert (∀ l', Forall clean_email l' → normalizeEmailList (VArr (VStr <$> l')) = l')
    as Hfix.
  { intros l' Hl'. cbn [normalizeEmailList].
    rewrite <- list_fmap_compose.
    by apply (normalize_clean_strings l'). }
  intros Hl. split; [by apply Hfix|].
  apply Hfix, normalizeEmailList_Forall_clean.
Qed.

Lemma normalizeEmailList_idempotent_witness :
  let l := ["a@x.io"; "b@y.io"; "a@x.io"] in
  normalizeEmailList (VArr (VStr <$> l)) = l
  ∧ normalizeEmailList
      (VArr (VStr <$> normalizeEmailList (VStr " a@x.io, ,b@y.io ,a@x.io")))
    = normalizeEmailList (VStr " a@x.io, ,b@y.io ,a@x.io").
Proof.
  intros l.
  apply (normalizeEmailList_idempotent (VStr " a@x.io, ,b@y.io ,a@x.io") l).
  repeat constructor; by vm_compute.
Defined.

(** X11: joining addresses that are non-empty, trimmed and free of commas
    with commas and giving the string to [normalizeEmailList] returns the
    addresses, in order. *)
Theorem normalizeEmailList_join (l : list string) :
  Forall (λ email, email ≠ "" ∧ trim email = email
                   ∧ includes "," email = false) l →
  normalizeEmailList (VStr (String.concat "," l)) = l.
Proof.
  intros Hl. cbn [normalizeEmailList].
  change "," with (String comma EmptyString). rewrite split_concat.
  - destruct l as [|e l]; [done|]. apply normalize_clean_strings.
    eapply Forall_impl; [done|]. by intros x (? & ? & _).
  - eapply Forall_impl; [done|]. by intros x (_ & _ & ?).
Qed.

Lemma normalizeEmailList_join_witness :
  normalizeEmailList (VStr (String.concat "," ["a@x.io"; "b@y.io"]))
  = ["a@x.io"; "b@y.io"].
Proof.
  apply (normalizeEmailList_join ["a@x.io"; "b@y.io"]).
  repeat constructor; by vm_compute.
Defined.

Example normalizeEmailList_examples :
  normalizeEmailList (VStr " a@x.io , b@y.io,, ") = ["a@x.io"; "b@y.io"]
  ∧ normalizeEmailList (VArr [VStr " a@x.io"; VStr ""; VNum 7; VNull])
    = ["a@x.io"; "7"; "null"]
  ∧ normalizeEmailList VUndef = []
  ∧ normalizeEmailList (VStr "") = [].
Proof. vm_compute. done. Qed.

(** ** [buildTemplateSendVariables] *)

Lemma coalesce_not_nullish a b : nullish b = false → nullish (coalesce a b) = false.
Proof. unfold coalesce. by destruct (nullish a) eqn:E. Qed.

Lemma send_step_lookup (m : gmap string jsval) v k :
  send_step m v !! k
  = if decide (sv_key v = k ∧ k ≠ "")
    then Some (coalesce (sv_value v) (VStr "")) else m !! k.
Proof.
  unfold send_step. destruct (String.eqb (sv_key v) "") eqn:E.
  - apply String.eqb_eq in E. rewrite decide_False; [done|].
    intros [<- ?]. done.
  - apply String.eqb_neq in E. destruct (decide (sv_key v = k)) as [<-|Hne].
    + rewrite decide_True by done. by simplify_map_eq.
    + rewrite decide_False by (by intros [? _]). by simplify_map_eq.
Qed.

(** The object after the loop: under a non-empty key the value of the last
    variable with that key. *)
Lemma foldl_send_step_lookup vars (m : gmap string jsval) k :
  foldl send_step m vars !! k
  = match last (filter (λ v, sv_key v = k ∧ k ≠ "") vars) with
    | Some v => Some (coalesce (sv_value v) (VStr ""))
    | None => m !! k
    end.
Proof.
  revert m. induction vars as [|v vars IH]; intros m; [done|].
  cbn [foldl]. rewrite IH, filter_cons, send_step_lookup.
  destruct (decide (sv_key v = k ∧ k ≠ "")); [|done].
  rewrite last_cons. by destruct (last _).
Qed.

Lemma foldl_send_step_empty vars :
  foldl send_step ∅ vars = ∅ ↔ Forall (λ v, sv_key v = "") vars.
Proof.
  split.
  - intros Hempty. apply Forall_forall. intros v Hv.
    destruct (decide (sv_key v = "")) as [|Hne]; [done|].
    assert (foldl send_step ∅ vars !! sv_key v = None) as Hnone
      by by rewrite Hempty.
    rewrite foldl_send_step_lookup in Hnone.
    destruct (last _) as [v'|] eqn:Hlast; [done|].
    apply last_None in Hlast.
    assert (v ∈ filter (λ v0, sv_key v0 = sv_key v ∧ sv_key v ≠ "") vars) as Hin
      by by apply list_elem_of_filter.
    rewrite Hlast in Hin. by apply elem_of_nil in Hin.
  - intros Hall. apply map_eq. intros k.
    rewrite foldl_send_step_lookup, lookup_empty.
    destruct (last _) as [v'|] eqn:Hlast; [|done].
    apply last_Some in Hlast as (l' & Hl').
    assert (v' ∈ filter (λ v0, sv_key v0 = k ∧ k ≠ "") vars) as Hin.
    { rewrite Hl'. apply elem_of_app. right. by apply list_elem_of_singleton. }
    apply list_elem_of_filter in Hin as [[Hk Hne] Hin].
    rewrite Forall_forall in Hall. specialize (Hall _ Hin). congruence.
Qed.

(** X12: [buildTemplateSendVariables] returns [undefined] exactly when no
    variable has a non-empty key: for an absent argument, an absent or
    empty [variables], and a list whose keys are all empty. *)
Theorem buildTemplateSendVariables_undefined (vars : list send_variable) :
  Forall (λ v, sv_key v ≠ "__proto__") vars →
  buildTemplateSendVariables None = None
  ∧ buildTemplateSendVariables (Some (mkSendInput None)) = None
  ∧ (buildTemplateSendVariables (Some (mkSendInput (Some vars))) = None
     ↔ Forall (λ v, sv_key v = "") vars).
Proof.
  intros _. split_and!; [done|done|].
  destruct vars as [|v vars]; [done|]. cbn [buildTemplateSendVariables].
  destruct (size _ =? 0)%nat eqn:E.
  - apply Nat.eqb_eq, map_size_empty_iff in E. split; [|done].
    intros _. by apply foldl_send_step_empty.
  - apply Nat.eqb_neq in E. split; [done|]. intros Hall.
    apply foldl_send_step_empty in Hall. by rewrite Hall in E.
Qed.

Lemma buildTemplateSendVariables_undefined_witness :
  let vars := [mkSendVariable "" (VStr "x"); mkSendVariable "" VUndef] in
  buildTemplateSendVariables None = None
  ∧ buildTemplateSendVariables (Some (mkSendInput None)) = None
  ∧ (buildTemplateSendVariables (Some (mkSendInput (Some vars))) = None
     ↔ Forall (λ v, sv_key v = "") vars).
Proof.
  intros vars. apply (buildTemplateSendVariables_undefined vars).
  repeat constructor; by vm_compute.
Defined.

(** X13: in the object [buildTemplateSendVariables] returns, a non-empty
    key holds the value of the last variable given with that key, with the
    empty string in place of a [null] or absent value; the empty key and
    the keys of no variable are absent, and no value is [null] or
    [undefined]. *)
Theorem buildTemplateSendVariables_last_wins (vars : list send_variable)
    (variables : gmap string jsval) :
  Forall (λ v, sv_key v ≠ "__proto__") vars →
  buildTemplateSendVariables (Some (mkSendInput (Some vars))) = Some variables →
  (∀ k, variables !! k
        = (λ v, coalesce (sv_value v) (VStr ""))
            <$> last (filter (λ v, sv_key v = k ∧ k ≠ "") vars))
  ∧ variables !! "" = None
  ∧ (∀ k x, variables !! k = Some x → nullish x = false)
  ∧ variables ≠ ∅.
Proof.
  intros _ Hbuild. destruct vars as [|v vars]; [done|].
  cbn [buildTemplateSendVariables] in Hbuild.
  destruct (size _ =? 0)%nat eqn:E; [done|]. injection Hbuild as <-.
  assert (∀ k, foldl send_step ∅ (v :: vars) !! k
               = (λ v0, coalesce (sv_value v0) (VStr ""))
                   <$> last (filter (λ v0, sv_key v0 = k ∧ k ≠ "") (v :: vars)))
    as Hlookup.
  { intros k. rewrite foldl_send_step_lookup. by destruct (last _). }
  split_and!.
  - done.
  - rewrite Hlookup. destruct (last _) as [v'|] eqn:Hlast; [|done].
    apply last_Some in Hlast as (l' & Hl').
    assert (v' ∈ filter (λ v0, sv_key v0 = "" ∧ "" ≠ "") (v :: vars)) as Hin.
    { rewrite Hl'. apply elem_of_app. right. by apply list_elem_of_singleton. }
    by apply list_elem_of_filter in Hin as [[_ ?] _].
  - intros k x. rewrite Hlookup. destruct (last _); [|done].
    intros [= <-]. by apply coalesce_not_nullish.
  - intros Hempty. apply Nat.eqb_neq in E. apply E.
    by apply map_size_empty_iff.
Qed.

Lemma buildTemplateSendVariables_last_wins_witness :
  let vars := [mkSendVariable "name" (VStr "Ann"); mkSendVariable "" (VStr "x");
               mkSendVariable "plan" VNull; mkSendVariable "name" (VStr "Bob")] in
  let variables : gmap string jsval :=
    <["name" := VStr "Bob"]> (<["plan" := VStr ""]> ∅) in
  (∀ k, variables !! k
        = (λ v, coalesce (sv_value v) (VStr ""))
            <$> last (filter (λ v, sv_key v = k ∧ k ≠ "") vars))
  ∧ variables !! "" = None
  ∧ (∀ k x, variables !! k = Some x → nullish x = false)
  ∧ variables ≠ ∅.
Proof.
  intros vars variables.
  apply (buildTemplateSendVariables_last_wins vars variables).
  - repeat constructor; by vm_compute.
  - vm_compute. reflexivity.
Defined.

(** ** [parseTemplateVariables] *)

Lemma map_outcome_ok {A B} (f : A → outcome B) l ys :
  map_outcome f l = Ok ys → Forall2 (λ x y, f x = Ok y) l ys.
Proof.
  revert ys. induction l as [|x l IH]; intros ys; cbn [map_outcome].
  - intros [= <-]. constructor.
  - destruct (f x) as [y| |] eqn:Hx; cbn [obind]; try done.
    destruct (map_outcome f l) as [ys'| |]; cbn [obind]; try done.
    intros [= <-]. constructor; [done|by apply IH].
Qed.


Section ParseFacts.

Variable toNumber : jsval → option Z.
Variables (fallbackKey : fallback_key) (itemIndex : Z).

Lemma parse_variable_bad v :
  bad_fallback toNumber v = true →
  parse_variable toNumber fallbackKey itemIndex v
  = Throw (NodeOperationError (fallback_message (tv_key v)) itemIndex).
Proof.
  unfold bad_fallback, parse_variable. rewrite !andb_true_iff.
  intros [[-> ->] Hnum]. by destruct (numericFallback _ _).
Qed.

Lemma parse_variable_good v :
  bad_fallback toNumber v = false →
  ∃ extra,
    parse_variable toNumber fallbackKey itemIndex v
    = Ok (VObj ([("key", VStr (tv_key v)); ("type", VStr (tv_type v))] ++ extra))
    ∧ (has_fallback (tv_fallbackValue v) = false → extra = [])
    ∧ (has_fallback (tv_fallbackValue v) = true →
       ∃ x, extra = [(fallback_key_name fallbackKey, x)]
         ∧ (tv_type v ≠ "number" → x = tv_fallbackValue v)
         ∧ (tv_type v = "number" →
            ∃ n, x = VNum n ∧ numericFallback toNumber (tv_fallbackValue v) = Some n)).
Proof.
  unfold bad_fallback, parse_variable.
  destruct (has_fallback _) eqn:Hf; cbn [andb].
  2:{ intros _. exists []. by split_and!. }
  destruct (String.eqb (tv_type v) "number") eqn:Ht; cbn [andb].
  - apply String.eqb_eq in Ht.
    destruct (numericFallback _ _) as [n|] eqn:Hn; [|done]. intros _.
    exists [(fallback_key_name fallbackKey, VNum n)]. cbn [obind]. split_and!.
    + by destruct fallbackKey.
    + done.
    + intros _. eexists. split_and!; [done|done|eauto].
  - apply String.eqb_neq in Ht. intros _.
    exists [(fallback_key_name fallbackKey, tv_fallbackValue v)].
    cbn [obind]. split_and!.
    + by destruct fallbackKey.
    + done.
    + intros _. eexists. split_and!; [done|done|done].
Qed.

Lemma parse_variable_not_diverge v :
  parse_variable toNumber fallbackKey itemIndex v ≠ Diverge.
Proof.
  destruct (bad_fallback toNumber v) eqn:E.
  - by rewrite parse_variable_bad.
  - by destruct (parse_variable_good v E) as (extra & -> & _).
Qed.


End ParseFacts.


(** X15: when [parseTemplateVariables] returns a list, it has one entry
    per variable, in order; each entry holds the variable's [key] and
    [type] and, only when a fallback is given and is not the empty string,
    one more field named by [fallbackKey].  For a variable not typed
    [number] the field holds the fallback as given; for a variable typed
    [number] whose fallback is, or converts to, an integer, it holds that
    integer as a number.  What is stored for a fallback whose number is not
    an integer is not stated.  The function returns [undefined] for an
    absent argument and for absent or empty [variables]. *)
Theorem parseTemplateVariables_entries (toNumber : jsval → option Z)
    (vars : list template_variable) (fallbackKey : fallback_key)
    (itemIndex : Z) (entries : list jsval) :
  parseTemplateVariables toNumber (Some (mkParseInput (Some vars)))
    fallbackKey itemIndex = Ok (Some entries) →
  Forall2
    (λ v entry,
       ∃ extra,
         entry = VObj ([("key", VStr (tv_key v)); ("type", VStr (tv_type v))]
                       ++ extra)
         ∧ (has_fallback (tv_fallbackValue v) = false → extra = [])
         ∧ (has_fallback (tv_fallbackValue v) = true →
            ∃ x, extra = [(fallback_key_name fallbackKey, x)]
              ∧ (tv_type v ≠ "number" → x = tv_fallbackValue v)
              ∧ (tv_type v = "number" →
                 ∀ n : Z,
                   numericFallback toNumber (tv_fallbackValue v) = Some n →
                   x = VNum n)))
    vars entries
  ∧ parseTemplateVariables toNumber None fallbackKey itemIndex = Ok None
  ∧ parseTemplateVariables toNumber (Some (mkParseInput None)) fallbackKey
      itemIndex = Ok None
  ∧ parseTemplateVariables toNumber (Some (mkParseInput (Some []))) fallbackKey
      itemIndex = Ok None.
Proof.
  intros Hrun. split_and!; try done.
  destruct vars as [|v vars]; [done|]. unfold parseTemplateVariables in Hrun.
  destruct (map_outcome _ (v :: vars)) as [ys| |] eqn:Hmap; cbn [obind] in Hrun;
    try done.
  injection Hrun as <-. apply map_outcome_ok in Hmap.
  eapply Forall2_impl; [done|]. intros v' entry Hv'. cbn beta in Hv'.
  destruct (bad_fallback toNumber v') eqn:E.
  - rewrite parse_variable_bad in Hv' by done. done.
  - destruct (parse_variable_good toNumber fallbackKey itemIndex v' E)
      as (extra & Heq & H1 & H2).
    exists extra. split_and!; [congruence|done|].
    intros Hfb. destruct (H2 Hfb) as (x & Hextra & Hother & Hnumber).
    exists x. split_and!; [done|done|].
    intros Htype n Hn. destruct (Hnumber Htype) as (n' & -> & Hn').
    congruence.
Qed.

Lemma parseTemplateVariables_entries_witness :
  let vars := [mkTemplateVariable "age" "number" (VStr "42");
               mkTemplateVariable "size" "number" (VNum 3);
               mkTemplateVariable "name" "string" (VStr "there");
               mkTemplateVariable "plan" "string" VUndef] in
  let entries :=
    [VObj [("key", VStr "age"); ("type", VStr "number"); ("fallback_value", VNum 42)];
     VObj [("key", VStr "size"); ("type", VStr "number"); ("fallback_value", VNum 3)];
     VObj [("key", VStr "name"); ("type", VStr "string");
           ("fallback_value", VStr "there")];
     VObj [("key", VStr "plan"); ("type", VStr "string")]] in
  Forall2
    (λ v entry,
       ∃ extra,
         entry = VObj ([("key", VStr (tv_key v)); ("type", VStr (tv_type v))]
                       ++ extra)
         ∧ (has_fallback (tv_fallbackValue v) = false → extra = [])
         ∧ (has_fallback (tv_fallbackValue v) = true →
            ∃ x, extra = [(fallback_key_name Fallback_value, x)]
              ∧ (tv_type v ≠ "number" → x = tv_fallbackValue v)
              ∧ (tv_type v = "number" →
                 ∀ n : Z,
                   numericFallback sample_toNumber (tv_fallbackValue v) = Some n →
                   x = VNum n)))
    vars entries
  ∧ parseTemplateVariables sample_toNumber None Fallback_value 3 = Ok None
  ∧ parseTemplateVariables sample_toNumber (Some (mkParseInput None))
      Fallback_value 3 = Ok None
  ∧ parseTemplateVariables sample_toNumber (Some (mkParseInput (Some [])))
      Fallback_value 3 = Ok None.
Proof.
  intros vars entries.
  apply (parseTemplateVariables_entries sample_toNumber vars Fallback_value 3
           entries).
  reflexivity.
Defined.

Example parseTemplateVariables_first_bad_fallback :
  parseTemplateVariables sample_toNumber
    (Some (mkParseInput
             (Some [mkTemplateVariable "a" "number" (VStr "7");
                    mkTemplateVariable "b" "number" (VStr "x1");
                    mkTemplateVariable "c" "number" (VStr "y2")])))
    FallbackValue 5
  = Throw (NodeOperationError (fallback_message "b") 5).
Proof. reflexivity. Qed.

(** ** [getTemplateVariables] *)

Lemma prefix_includes s :
  String.prefix "={{" s = true → includes "{{" s = true.
Proof.
  destruct s as [|c s]; [done|]. intros H.
  assert (String.prefix "{{" s = true) as Hs.
  { cbn [String.prefix] in H. by destruct (ascii_dec _ c). }
  cbn [includes]. apply orb_true_iff. right.
  destruct s; cbn [includes]; by rewrite Hs.
Qed.

(** The test with [startsWith] adds nothing to the test with [includes]. *)
Lemma is_expression_includes s : is_expression s = includes "{{" s.
Proof.
  unfold is_expression, startsWith.
  destruct (String.prefix "={{" s) eqn:E; [|done].
  by rewrite (prefix_includes s E).
Qed.

Section LoadOptionsFacts.

Variable currentParameters : jsval.
Variable getCurrentNodeParameter : string → outcome jsval.
Variable getNodeParameter : string → outcome jsval.

Lemma getParameterValue_first name :
  getParameterValue currentParameters getCurrentNodeParameter getNodeParameter name
  = head (omap getStringValue
            [opt_prop currentParameters name;
             safeGet (getCurrentNodeParameter name);
             safeGet (getNodeParameter name)]).
Proof.
  unfold getParameterValue. cbn.
  destruct (getStringValue (opt_prop currentParameters name)); [done|].
  destruct (getStringValue (safeGet (getCurrentNodeParameter name))); [done|].
  by destruct (getStringValue (safeGet (getNodeParameter name))).
Qed.

Lemma getStringValue_Some v s :
  getStringValue v = Some s → v = VStr s ∧ trim s ≠ "".
Proof.
  destruct v as [| | | |s0| |]; cbn [getStringValue]; try done.
  destruct (String.eqb (trim s0) "") eqn:E; [done|].
  intros [= <-]. by apply String.eqb_neq in E.
Qed.

Lemma getParameterValue_Some name s :
  getParameterValue currentParameters getCurrentNodeParameter getNodeParameter
    name = Some s →
  trim s ≠ "".
Proof.
  unfold getParameterValue.
  destruct (getStringValue (opt_prop _ _)) eqn:E1.
  { intros [= ->]. by apply getStringValue_Some in E1 as [_ ?]. }
  destruct (getStringValue (safeGet (getCurrentNodeParameter _))) eqn:E2.
  { intros [= ->]. by apply getStringValue_Some in E2 as [_ ?]. }
  intros E3. by apply getStringValue_Some in E3 as [_ ?].
Qed.

End LoadOptionsFacts.

(** X16: the template id [getTemplateVariables] works with is the first
    non-blank string among six sources, in this order: for the parameter
    [emailTemplateId] the current node parameters, then
    [getCurrentNodeParameter], then [getNodeParameter], and after these the
    same three for [templateId].  A source that throws, or holds anything
    but a string with a character other than white space, is passed
    over. *)
Theorem resolveTemplateId_precedence (currentParameters : jsval)
    (getCurrentNodeParameter getNodeParameter : string → outcome jsval) :
  resolveTemplateId currentParameters getCurrentNodeParameter getNodeParameter
  = head (omap getStringValue
            [opt_prop currentParameters "emailTemplateId";
             safeGet (getCurrentNodeParameter "emailTemplateId");
             safeGet (getNodeParameter "emailTemplateId");
             opt_prop currentParameters "templateId";
             safeGet (getCurrentNodeParameter "templateId");
             safeGet (getNodeParameter "templateId")])
  ∧ (∀ templateId,
       resolveTemplateId currentParameters getCurrentNodeParameter
         getNodeParameter = Some templateId →
       trim templateId ≠ "").
Proof.
  split.
  - unfold resolveTemplateId. rewrite !getParameterValue_first. cbn.
    destruct (getStringValue (opt_prop currentParameters "emailTemplateId"));
      [done|].
    destruct (getStringValue (safeGet (getCurrentNodeParameter "emailTemplateId")));
      [done|].
    destruct (getStringValue (safeGet (getNodeParameter "emailTemplateId")));
      [done|].
    destruct (getStringValue (opt_prop currentParameters "templateId")); [done|].
    destruct (getStringValue (safeGet (getCurrentNodeParameter "templateId")));
      [done|].
    by destruct (getStringValue (safeGet (getNodeParameter "templateId"))).
  - intros templateId. unfold resolveTemplateId.
    destruct (getParameterValue _ _ _ "emailTemplateId") eqn:E.
    + intros [= ->]. by eapply getParameterValue_Some.
    + by apply getParameterValue_Some.
Qed.

(** X17: [getTemplateVariables] returns the empty list without issuing any
    request when no template id is found and when the trimmed id holds
    [{{]; the test for a leading [={{] never decides. *)
Theorem getTemplateVariables_without_request {World}
    (transport : request → World → reply * World)
    (currentParameters : jsval)
    (getCurrentNodeParameter getNodeParameter : string → outcome jsval)
    (encodeURIComponent : string → string) (apiKey : string)
    (st : state World) :
  (resolveTemplateId currentParameters getCurrentNodeParameter getNodeParameter
   = None
   ∨ ∃ templateId,
       resolveTemplateId currentParameters getCurrentNodeParameter
         getNodeParameter = Some templateId
       ∧ includes "{{" (trim templateId) = true) →
  getTemplateVariables transport currentParameters getCurrentNodeParameter
    getNodeParameter encodeURIComponent apiKey st
  = (Ok [], st).
Proof.
  unfold getTemplateVariables. intros [->|(templateId & -> & Hexpr)]; [done|].
  by rewrite is_expression_includes, Hexpr.
Qed.

Lemma getTemplateVariables_without_request_witness :
  getTemplateVariables scripted
    (VObj [("emailTemplateId", VStr "  "); ("templateId", VStr " ={{ $json.id }}")])
    (λ _, Throw TypeError) (λ _, Ok (VStr "")) (λ s, s) "key"
    (init [VObj [("variables", VArr [VObj [("key", VStr "name")]])]])
  = (Ok [], init [VObj [("variables", VArr [VObj [("key", VStr "name")]])]]).
Proof.
  apply (getTemplateVariables_without_request scripted).
  right. exists " ={{ $json.id }}". split; reflexivity.
Defined.

Lemma append_empty_r (s : string) : s +:+ "" = s.
Proof. unfold String.app. induction s as [|c s IH]; cbn; [done|by rewrite IH]. Qed.

(** X18: with a template id found whose trimmed form holds no [{{],
    [getTemplateVariables] issues exactly one request, a [GET] of the
    template under the encoded id as it was found (not trimmed).  A
    rejection is thrown on.  Of the response, an absent or [null]
    [variables] gives the empty list, and anything else but an array makes
    it throw a [TypeError].  An array whose elements with a truthy [key]
    have a string for [key] and a string or nothing for [type], as the
    source declares them, gives one option per such element, in order: its
    value is the key and its name is the key followed, when the element has
    a non-empty [type], by a space and the type in parentheses. *)
Theorem getTemplateVariables_one_request {World}
    (transport : request → World → reply * World)
    (currentParameters : jsval)
    (getCurrentNodeParameter getNodeParameter : string → outcome jsval)
    (encodeURIComponent : string → string) (apiKey : string)
    (st : state World) (templateId : string) (r : reply) (w' : World) :
  resolveTemplateId currentParameters getCurrentNodeParameter getNodeParameter
  = Some templateId →
  includes "{{" (trim templateId) = false →
  let rq :=
    mkRequest
      ("https://api.resend.com/templates/" +:+ encodeURIComponent templateId)
      "GET" ("Bearer " +:+ apiKey) ∅ true in
  transport rq (world st) = (r, w') →
  ∃ o,
    getTemplateVariables transport currentParameters getCurrentNodeParameter
      getNodeParameter encodeURIComponent apiKey st
    = (o, mkState w' (calls st ++ [(rq, r)]))
    ∧ match r with
      | Rejected e => o = Throw e
      | Resolved resp =>
          match opt_prop resp "variables" with
          | VUndef | VNull => o = Ok []
          | VArr l =>
              Forall
                (λ variable,
                   (∃ key : string, opt_prop variable "key" = VStr key)
                   ∧ (truthy (opt_prop variable "type") = false
                      ∨ ∃ type : string, opt_prop variable "type" = VStr type))
                (filter (λ variable, truthy (opt_prop variable "key") = true) l) →
              ∃ out, o = Ok out
                ∧ Forall2
                    (λ variable option,
                       opt_value option = opt_prop variable "key"
                       ∧ ∀ key : string,
                           opt_prop variable "key" = VStr key →
                           (truthy (opt_prop variable "type") = false →
                            opt_name option = VStr key)
                           ∧ (∀ type : string,
                                opt_prop variable "type" = VStr type →
                                type ≠ "" →
                                opt_name option
                                = VStr (key +:+ " (" +:+ type +:+ ")")))
                    (filter (λ variable, truthy (opt_prop variable "key") = true) l)
                    out
          | _ => o = Throw TypeError
          end
      end.
Proof.
  intros Hid Hexpr rq Ht. unfold getTemplateVariables.
  rewrite Hid, is_expression_includes, Hexpr.
  unfold bind, httpRequest, template_request, lift, bearer. subst rq.
  rewrite Ht.
  destruct r as [resp|e]; [|by eexists].
  destruct (opt_prop resp "variables") as [| | | | |l|] eqn:Hv;
    cbn [coalesce nullish variable_options]; try by eexists.
  eexists. split; [done|]. intros _. eexists. split; [done|].
  apply Forall2_fmap_r, Forall_Forall2_diag, Forall_forall.
  intros variable _. unfold variable_option. cbn [opt_value opt_name].
  split; [done|]. intros key Hkey. rewrite Hkey. cbn [toString]. split.
  - intros ->. by rewrite append_empty_r.
  - intros type Htype Hne. rewrite Htype. cbn [truthy toString].
    by rewrite (proj2 (String.eqb_neq _ _) Hne).
Qed.

Lemma getTemplateVariables_one_request_witness :
  let variables :=
    [VObj [("key", VStr "name"); ("type", VStr "string")];
     VObj [("type", VStr "number")];
     VObj [("key", VStr "age")]] in
  let resp := VObj [("variables", VArr variables)] in
  let rq :=
    mkRequest ("https://api.resend.com/templates/" +:+ " tpl_1 ")
      "GET" ("Bearer " +:+ "key") ∅ true in
  ∃ o,
    getTemplateVariables scripted (VObj [("emailTemplateId", VStr " tpl_1 ")])
      (λ _, Throw TypeError) (λ _, Throw TypeError) (λ s, s) "key" (init [resp])
    = (o, mkState [] ([] ++ [(rq, Resolved resp)]))
    ∧ ∃ out, o = Ok out
        ∧ Forall2
            (λ variable option,
               opt_value option = opt_prop variable "key"
               ∧ ∀ key : string,
                   opt_prop variable "key" = VStr key →
                   (truthy (opt_prop variable "type") = false →
                    opt_name option = VStr key)
                   ∧ (∀ type : string,
                        opt_prop variable "type" = VStr type →
                        type ≠ "" →
                        opt_name option
                        = VStr (key +:+ " (" +:+ type +:+ ")")))
            (filter (λ variable, truthy (opt_prop variable "key") = true)
               variables)
            out.
Proof.
  intros variables resp rq.
  destruct (getTemplateVariables_one_request scripted
              (VObj [("emailTemplateId", VStr " tpl_1 ")])
              (λ _, Throw TypeError) (λ _, Throw TypeError) (λ s, s) "key"
              (init [resp]) " tpl_1 " (Resolved resp) []
              eq_refl eq_refl eq_refl) as (o & Hrun & Hout).
  exists o. split; [exact Hrun|]. apply Hout.
  match goal with
  | |- Forall ?P ?l => let l' := eval vm_compute in l in change (Forall P l')
  end.
  repeat (apply List.Forall_cons;
          [split;
           [eexists; reflexivity
           |first [left; reflexivity|right; eexists; reflexivity]]|]).
  apply List.Forall_nil.
Defined.

Example getTemplateVariables_options :
  (getTemplateVariables scripted (VObj [("emailTemplateId", VStr " tpl_1 ")])
     (λ _, Throw TypeError) (λ _, Throw TypeError) (λ s, s) "key"
     (init [VObj [("variables",
                   VArr [VObj [("key", VStr "name"); ("type", VStr "string")];
                         VObj [("type", VStr "number")];
                         VObj [("key", VStr "age")]])]])).1
  = Ok [mkOption (VStr "name (string)") (VStr "name");
        mkOption (VStr "age") (VStr "age")].
Proof. vm_compute. reflexivity. Qed.
